(** * apphud.js: the orchestration core of the SDK

    A shallow embedding of [src/core/index.ts] (class [ApphudSDK]) and of
    [src/core/paymentForms/stripeForm.ts] (class [StripeForm]), with the
    properties of the readiness gate, the event backlog, the selection
    state and the payment form submit handler.

    JavaScript values are modelled as follows: [undefined] and [null] of an
    object-typed slot are [None]; a string slot that the code compares with
    [null] keeps the three cases apart ([jsstring]); a [number] used as an
    array index is an integer or [NaN]; a property read on [undefined]
    raises [TypeError]. *)

From Stdlib Require Import ZArith String Ascii List Lia Bool DecimalZ DecimalPos.
From stdpp Require Import base option list gmap strings pretty.
From Equations.Prop Require Import Equations Logic.

Open Scope Z_scope.

(** ** JavaScript values shared by the components *)

(** A value of type [string | null | undefined]. *)
Inductive jsstring :=
| JsUndefined
| JsNull
| JsString (s : string).

(** A [number]: the code only produces integers (array indices, [parseInt])
    and [NaN]. *)
Inductive number :=
| Num (z : Z)
| NaN.

(** Free-form data (the [ApphudHash] bags, product property bags). *)
#[local] Set Warnings "-register-all".
Inductive json :=
| JNull
| JBool (b : bool)
| JNum (z : Z)
| JStr (s : string)
| JArr (elems : list json)
| JObj (fields : list (string * json)).

(** The outcome of evaluating an expression: a value, or a [TypeError]
    raised by reading a property of [undefined]. *)
Inductive js (A : Type) :=
| Val (a : A)
| TypeError.
Arguments Val {A} a.
Arguments TypeError {A}.

(** Sequencing: a [TypeError] propagates (nothing in these paths catches
    it). [x ← m; k] is stdpp's notation for it. *)
#[global] Instance js_bind : MBind js := λ A B k m,
  match m with
  | Val a => k a
  | TypeError => TypeError
  end.

(** [o.f] where [o] may be [undefined]. *)
Definition prop {A B} (f : A -> B) (o : option A) : js B :=
  match o with
  | Some a => Val (f a)
  | None => TypeError
  end.

(** [o !== null && o !== undefined], and truthiness of an object slot. *)
Definition defined {A} (o : option A) : bool :=
  match o with
  | Some _ => true
  | None => false
  end.

(** [arr[n]]: the element when [n] is an integer within bounds, otherwise
    [undefined]. *)
Definition js_index {A} (arr : list A) (n : number) : option A :=
  match n with
  | Num z => if z <? 0 then None else arr !! Z.to_nat z
  | NaN => None
  end.

(** [n < 0] on numbers; every comparison with [NaN] is false. *)
Definition js_lt0 (n : number) : bool :=
  match n with
  | Num z => z <? 0
  | NaN => false
  end.

(** [`${n}`] *)
Definition number_to_string (n : number) : string :=
  match n with
  | Num z => pretty z
  | NaN => "NaN"
  end.

(** *** String primitives: [split(',')], [trim()], [parseInt] *)

Module JsString.

(** [s.split(c)]: never empty, [''.split(',')] is [['']]. *)
Fixpoint split (c : ascii) (s : string) : list string :=
  match s with
  | EmptyString => [EmptyString]
  | String x s' =>
      if Ascii.eqb x c then EmptyString :: split c s'
      else match split c s' with
           | h :: t => String x h :: t
           | [] => [String x EmptyString]
           end
  end.

(** White space of the ASCII range: TAB, LF, VT, FF, CR, SP. *)
Definition is_white (a : ascii) : bool :=
  let n := nat_of_ascii a in
  ((9 <=? n)%nat && (n <=? 13)%nat) || (n =? 32)%nat.

Fixpoint trim_start (s : string) : string :=
  match s with
  | EmptyString => EmptyString
  | String x s' => if is_white x then trim_start s' else s
  end.

Fixpoint trim_end (s : string) : string :=
  match s with
  | EmptyString => EmptyString
  | String x s' =>
      match trim_end s' with
      | EmptyString => if is_white x then EmptyString else String x EmptyString
      | r => String x r
      end
  end.

Definition trim (s : string) : string := trim_end (trim_start s).

(** The value of a digit in the given radix (10 or 16). *)
Definition digit (radix : Z) (a : ascii) : option Z :=
  let n := Z.of_nat (nat_of_ascii a) in
  let d := if (48 <=? n) && (n <=? 57) then Some (n - 48)
           else if (97 <=? n) && (n <=? 102) then Some (n - 87)
           else if (65 <=? n) && (n <=? 70) then Some (n - 55)
           else None in
  match d with
  | Some v => if v <? radix then Some v else None
  | None => None
  end.

(** The longest prefix of digits, as [Some] of its value, [None] when the
    prefix is empty. *)
Fixpoint digits (radix : Z) (acc : option Z) (s : string) : option Z :=
  match s with
  | EmptyString => acc
  | String x s' =>
      match digit radix x with
      | Some v => digits radix (Some (radix * default 0 acc + v)) s'
      | None => acc
      end
  end.

Definition strip_sign (s : string) : bool * string :=
  match s with
  | String "-" s' => (true, s')
  | String "+" s' => (false, s')
  | _ => (false, s)
  end.

Definition strip_hex (s : string) : Z * string :=
  match s with
  | String "0" (String "x" s') => (16, s')
  | String "0" (String "X" s') => (16, s')
  | _ => (10, s)
  end.

(** [parseInt(s)] with no radix argument. *)
Definition parseInt (s : string) : number :=
  let '(neg, s1) := strip_sign (trim_start s) in
  let '(radix, s2) := strip_hex s1 in
  match digits radix None s2 with
  | Some v => Num (if neg then - v else v)
  | None => NaN
  end.

End JsString.

Example split_three : JsString.split "," "0,1,price.amount" = ["0"; "1"; "price.amount"].
Proof. reflexivity. Qed.

Example split_empty : JsString.split "," "" = [""].
Proof. reflexivity. Qed.

Example trim_both : JsString.trim "  main " = "main".
Proof. reflexivity. Qed.

Example parseInt_examples :
  JsString.parseInt "1" = Num 1 /\ JsString.parseInt "-2" = Num (-2) /\
  JsString.parseInt "12px" = Num 12 /\ JsString.parseInt "x" = NaN /\
  JsString.parseInt "" = NaN /\ JsString.parseInt "0x1f" = Num 31.
Proof. repeat split; reflexivity. Qed.

(** ** JSON text

    [JSON.stringify] writes a value in the compact form, to be followed by
    the text [k]; [JSON.parse] reads that form back. Numbers are integers;
    in a string literal the quote, the backslash and the control
    characters are escaped as [JSON.stringify] escapes them. *)

Module Json.

Definition quote : ascii := ascii_of_nat 34.
Definition backslash : ascii := ascii_of_nat 92.

(** *** Numbers *)

Fixpoint uint_k (d : Decimal.uint) (k : string) : string :=
  match d with
  | Decimal.Nil => k
  | Decimal.D0 d => String "0" (uint_k d k)
  | Decimal.D1 d => String "1" (uint_k d k)
  | Decimal.D2 d => String "2" (uint_k d k)
  | Decimal.D3 d => String "3" (uint_k d k)
  | Decimal.D4 d => String "4" (uint_k d k)
  | Decimal.D5 d => String "5" (uint_k d k)
  | Decimal.D6 d => String "6" (uint_k d k)
  | Decimal.D7 d => String "7" (uint_k d k)
  | Decimal.D8 d => String "8" (uint_k d k)
  | Decimal.D9 d => String "9" (uint_k d k)
  end.

Definition num_k (z : Z) (k : string) : string :=
  match Z.to_int z with
  | Decimal.Pos d => uint_k d k
  | Decimal.Neg d => String "-" (uint_k d k)
  end.

Definition is_digit (a : ascii) : bool :=
  let n := nat_of_ascii a in ((48 <=? n) && (n <=? 57))%nat.

Fixpoint parse_uint (s : string) : Decimal.uint * string :=
  match s with
  | String a r =>
      if is_digit a then
        let '(d, r') := parse_uint r in
        (match a with
         | "0" => Decimal.D0 d | "1" => Decimal.D1 d | "2" => Decimal.D2 d
         | "3" => Decimal.D3 d | "4" => Decimal.D4 d | "5" => Decimal.D5 d
         | "6" => Decimal.D6 d | "7" => Decimal.D7 d | "8" => Decimal.D8 d
         | _ => Decimal.D9 d
         end%char, r')
      else (Decimal.Nil, s)
  | EmptyString => (Decimal.Nil, s)
  end.

Definition finish_num (sign : Decimal.uint -> Decimal.signed_int)
    (p : Decimal.uint * string) : option (Z * string) :=
  match p with
  | (Decimal.Nil, _) => None
  | (d, r) => Some (Z.of_int (sign d), r)
  end.

Definition parse_num (s : string) : option (Z * string) :=
  match s with
  | String a r =>
      if Ascii.eqb a "-" then finish_num Decimal.Neg (parse_uint r)
      else finish_num Decimal.Pos (parse_uint s)
  | EmptyString => None
  end.

(** What may follow a number: anything but a digit. *)
Definition follow (k : string) : Prop :=
  match k with
  | EmptyString => True
  | String a _ => is_digit a = false
  end.

Lemma parse_uint_k (d : Decimal.uint) (k : string) :
  follow k -> parse_uint (uint_k d k) = (d, k).
Proof.
  intros Hk. induction d; simpl; try (rewrite IHd; reflexivity).
  destruct k as [|a r]; [done|]. simpl in *. by rewrite Hk.
Qed.

Lemma uint_k_head (d : Decimal.uint) (k : string) :
  d <> Decimal.Nil ->
  exists a r, uint_k d k = String a r /\ Ascii.eqb a "-" = false.
Proof. intros Hd. destruct d; [done|..]; by eexists _, _. Qed.

Lemma finish_num_nonnil sign (d : Decimal.uint) (k : string) :
  d <> Decimal.Nil -> finish_num sign (d, k) = Some (Z.of_int (sign d), k).
Proof. intros Hd. by destruct d. Qed.

Lemma parse_num_uint (d : Decimal.uint) (k : string) :
  d <> Decimal.Nil -> follow k ->
  parse_num (uint_k d k) = Some (Z.of_int (Decimal.Pos d), k) /\
  parse_num (String "-" (uint_k d k)) = Some (Z.of_int (Decimal.Neg d), k).
Proof.
  intros Hd Hk. split.
  - destruct (uint_k_head d k Hd) as (a & r & Heq & Hminus).
    unfold parse_num. rewrite Heq, Hminus, <- Heq, parse_uint_k by done.
    by apply finish_num_nonnil.
  - unfold parse_num. simpl. rewrite parse_uint_k by done.
    by apply finish_num_nonnil.
Qed.

Lemma parse_num_k (z : Z) (k : string) :
  follow k -> parse_num (num_k z k) = Some (z, k).
Proof.
  intros Hk. unfold num_k. rewrite <- (DecimalZ.of_to z) at 2.
  destruct z as [|p|p]; simpl Z.to_int.
  - by apply (parse_num_uint (Decimal.D0 Decimal.Nil) k).
  - apply parse_num_uint; [apply Unsigned.to_uint_nonnil | done].
  - apply parse_num_uint; [apply Unsigned.to_uint_nonnil | done].
Qed.

(** *** Strings *)

Definition hex_char (n : nat) : ascii :=
  ascii_of_nat (if (n <? 10)%nat then 48 + n else 87 + n).

Definition hex_val (a : ascii) : option nat :=
  let n := nat_of_ascii a in
  if ((48 <=? n) && (n <=? 57))%nat then Some (n - 48)%nat
  else if ((97 <=? n) && (n <=? 102))%nat then Some (n - 87)%nat
  else if ((65 <=? n) && (n <=? 70))%nat then Some (n - 55)%nat
  else None.

(** One character of a string literal, followed by [k]. *)
Definition esc_char_k (c : ascii) (k : string) : string :=
  let n := nat_of_ascii c in
  if Ascii.eqb c quote then String backslash (String quote k)
  else if Ascii.eqb c backslash then String backslash (String backslash k)
  else if (n =? 8)%nat then String backslash (String "b" k)
  else if (n =? 9)%nat then String backslash (String "t" k)
  else if (n =? 10)%nat then String backslash (String "n" k)
  else if (n =? 12)%nat then String backslash (String "f" k)
  else if (n =? 13)%nat then String backslash (String "r" k)
  else if (n <? 32)%nat then
    String backslash (String "u" (String "0" (String "0"
      (String (hex_char (n / 16)) (String (hex_char (n mod 16)) k)))))
  else String c k.

Fixpoint esc_k (s : string) (k : string) : string :=
  match s with
  | EmptyString => k
  | String c s' => esc_char_k c (esc_k s' k)
  end.

Definition str_k (s : string) (k : string) : string :=
  String quote (esc_k s (String quote k)).

Definition cons_char (c : ascii) (p : option (string * string))
    : option (string * string) :=
  match p with
  | Some (s, r) => Some (String c s, r)
  | None => None
  end.

(** The characters of a string literal up to the closing quote. *)
Fixpoint parse_chars (s : string) : option (string * string) :=
  match s with
  | EmptyString => None
  | String c r =>
      if Ascii.eqb c quote then Some (EmptyString, r)
      else if Ascii.eqb c backslash then
        match r with
        | String e r1 =>
            if Ascii.eqb e "u" then
              match r1 with
              | String h1 (String h2 (String h3 (String h4 r2))) =>
                  match hex_val h1, hex_val h2, hex_val h3, hex_val h4 with
                  | Some 0%nat, Some 0%nat, Some x, Some y =>
                      cons_char (ascii_of_nat (16 * x + y)) (parse_chars r2)
                  | _, _, _, _ => None
                  end
              | _ => None
              end
            else if Ascii.eqb e "b" then cons_char (ascii_of_nat 8) (parse_chars r1)
            else if Ascii.eqb e "t" then cons_char (ascii_of_nat 9) (parse_chars r1)
            else if Ascii.eqb e "n" then cons_char (ascii_of_nat 10) (parse_chars r1)
            else if Ascii.eqb e "f" then cons_char (ascii_of_nat 12) (parse_chars r1)
            else if Ascii.eqb e "r" then cons_char (ascii_of_nat 13) (parse_chars r1)
            else if Ascii.eqb e quote then cons_char quote (parse_chars r1)
            else if Ascii.eqb e backslash then cons_char backslash (parse_chars r1)
            else if Ascii.eqb e "/" then cons_char "/" (parse_chars r1)
            else None
        | EmptyString => None
        end
      else cons_char c (parse_chars r)
  end.

Definition parse_str (s : string) : option (string * string) :=
  match s with
  | String c r => if Ascii.eqb c quote then parse_chars r else None
  | EmptyString => None
  end.

Lemma parse_chars_esc_char (c : ascii) (k : string) :
  parse_chars (esc_char_k c k) = cons_char c (parse_chars k).
Proof.
  destruct c as [[] [] [] [] [] [] [] []]; reflexivity.
Qed.

Lemma parse_chars_esc (s : string) (k : string) :
  parse_chars (esc_k s (String quote k)) = Some (s, k).
Proof.
  induction s as [|c s IH]; simpl; [done|].
  by rewrite parse_chars_esc_char, IH.
Qed.

Lemma parse_str_k (s : string) (k : string) :
  parse_str (str_k s k) = Some (s, k).
Proof. unfold parse_str, str_k. simpl. apply parse_chars_esc. Qed.


(** *** Values *)

Fixpoint print_k (j : json) (k : string) : string :=
  match j with
  | JNull => String "n" (String "u" (String "l" (String "l" k)))
  | JBool true => String "t" (String "r" (String "u" (String "e" k)))
  | JBool false =>
      String "f" (String "a" (String "l" (String "s" (String "e" k))))
  | JNum z => num_k z k
  | JStr s => str_k s k
  | JArr l =>
      String "["
        ((fix elems (l : list json) : string :=
            match l with
            | [] => String "]" k
            | x :: l' =>
                print_k x
                  (match l' with
                   | [] => elems l'
                   | _ :: _ => String "," (elems l')
                   end)
            end) l)
  | JObj l =>
      String "{"
        ((fix members (l : list (string * json)) : string :=
            match l with
            | [] => String "}" k
            | (key, v) :: l' =>
                str_k key (String ":"
                  (print_k v
                     (match l' with
                      | [] => members l'
                      | _ :: _ => String "," (members l')
                      end)))
            end) l)
  end.

(** The elements of an array from the first one on, up to and including
    the closing bracket; the members of an object likewise. *)
Fixpoint elems_k (l : list json) (k : string) : string :=
  match l with
  | [] => String "]" k
  | x :: l' =>
      print_k x (match l' with
                 | [] => elems_k l' k
                 | _ :: _ => String "," (elems_k l' k)
                 end)
  end.

Fixpoint members_k (l : list (string * json)) (k : string) : string :=
  match l with
  | [] => String "}" k
  | (key, v) :: l' =>
      str_k key (String ":"
        (print_k v (match l' with
                    | [] => members_k l' k
                    | _ :: _ => String "," (members_k l' k)
                    end)))
  end.

Lemma print_k_JArr (l : list json) (k : string) :
  print_k (JArr l) k = String "[" (elems_k l k).
Proof.
  simpl. f_equal. induction l as [|x l IH]; simpl; [done|].
  destruct l; by rewrite IH.
Qed.

Lemma print_k_JObj (l : list (string * json)) (k : string) :
  print_k (JObj l) k = String "{" (members_k l k).
Proof.
  simpl. f_equal. induction l as [|[key v] l IH]; simpl; [done|].
  destruct l; by rewrite IH.
Qed.

(** The parser. [n] bounds the nesting of calls; [parse] below gives
    it the length of the text, which is always enough. *)
Fixpoint parse_value (n : nat) (s : string) {struct n} : option (json * string) :=
  match n with
  | O => None
  | S n' =>
      match s with
      | String "n" (String "u" (String "l" (String "l" r))) => Some (JNull, r)
      | String "t" (String "r" (String "u" (String "e" r))) => Some (JBool true, r)
      | String "f" (String "a" (String "l" (String "s" (String "e" r)))) =>
          Some (JBool false, r)
      | String "[" r =>
          match parse_elems n' r with
          | Some (l, r') => Some (JArr l, r')
          | None =>
              match r with
              | String "]" r' => Some (JArr [], r')
              | _ => None
              end
          end
      | String "{" r =>
          match parse_members n' r with
          | Some (l, r') => Some (JObj l, r')
          | None =>
              match r with
              | String "}" r' => Some (JObj [], r')
              | _ => None
              end
          end
      | String c r =>
          if Ascii.eqb c quote then
            match parse_chars r with
            | Some (str, r') => Some (JStr str, r')
            | None => None
            end
          else
            match parse_num s with
            | Some (z, r') => Some (JNum z, r')
            | None => None
            end
      | EmptyString => None
      end
  end
with parse_elems (n : nat) (s : string) {struct n} : option (list json * string) :=
  match n with
  | O => None
  | S n' =>
      match parse_value n' s with
      | Some (x, String "," r) =>
          match parse_elems n' r with
          | Some (l, r') => Some (x :: l, r')
          | None => None
          end
      | Some (x, String "]" r) => Some ([x], r)
      | _ => None
      end
  end
with parse_members (n : nat) (s : string) {struct n}
    : option (list (string * json) * string) :=
  match n with
  | O => None
  | S n' =>
      match parse_str s with
      | Some (key, String ":" r) =>
          match parse_value n' r with
          | Some (v, String "," r1) =>
              match parse_members n' r1 with
              | Some (l, r') => Some ((key, v) :: l, r')
              | None => None
              end
          | Some (v, String "}" r1) => Some ([(key, v)], r1)
          | _ => None
          end
      | _ => None
      end
  end.


Definition stringify (j : json) : string := print_k j EmptyString.

Definition parse (s : string) : option json :=
  match parse_value (S (String.length s)) s with
  | Some (j, EmptyString) => Some j
  | _ => None
  end.

(** *** Induction on values, through the lists they nest in *)

Section Induction.
Variable P : json -> Prop.
Hypothesis HNull : P JNull.
Hypothesis HBool : forall b, P (JBool b).
Hypothesis HNum : forall z, P (JNum z).
Hypothesis HStr : forall s, P (JStr s).
Hypothesis HArr : forall l, Forall P l -> P (JArr l).
Hypothesis HObj : forall l, Forall (fun kv => P (snd kv)) l -> P (JObj l).

Fixpoint json_nested_ind (j : json) : P j :=
  match j with
  | JNull => HNull
  | JBool b => HBool b
  | JNum z => HNum z
  | JStr s => HStr s
  | JArr l =>
      HArr l ((fix go (l : list json) : Forall P l :=
                 match l with
                 | [] => @List.Forall_nil _ P
                 | x :: l' => @List.Forall_cons _ P x l' (json_nested_ind x) (go l')
                 end) l)
  | JObj l =>
      HObj l ((fix go (l : list (string * json))
                 : Forall (fun kv => P (snd kv)) l :=
                 match l with
                 | [] => @List.Forall_nil _ _
                 | kv :: l' =>
                     @List.Forall_cons _ (fun kv => P (snd kv)) kv l'
                       (json_nested_ind (snd kv)) (go l')
                 end) l)
  end.
End Induction.

(** *** A printed value is never shorter than what follows it *)

Lemma uint_k_length (d : Decimal.uint) (k : string) :
  (String.length k <= String.length (uint_k d k))%nat.
Proof. induction d; simpl; lia. Qed.

Lemma esc_char_k_length (c : ascii) (k : string) :
  (String.length k <= String.length (esc_char_k c k))%nat.
Proof.
  unfold esc_char_k. repeat case_match; simpl; lia.
Qed.

Lemma esc_k_length (s : string) (k : string) :
  (String.length k <= String.length (esc_k s k))%nat.
Proof.
  induction s as [|c s IH]; simpl; [lia|].
  pose proof (esc_char_k_length c (esc_k s k)). lia.
Qed.

Lemma str_k_length (s : string) (k : string) :
  (S (String.length k) < String.length (str_k s k))%nat.
Proof.
  unfold str_k. simpl.
  pose proof (esc_k_length s (String quote k)). simpl in *. lia.
Qed.

Lemma print_k_length (j : json) :
  forall k, (String.length k <= String.length (print_k j k))%nat.
Proof.
  induction j as [|b|z|s|l IH|l IH] using json_nested_ind; intros k.
  - simpl. lia.
  - destruct b; simpl; lia.
  - simpl. unfold num_k. destruct (Z.to_int z) as [d|d]; simpl;
      pose proof (uint_k_length d k); lia.
  - pose proof (str_k_length s k).
    change (print_k (JStr s) k) with (str_k s k). lia.
  - rewrite print_k_JArr. simpl.
    enough (String.length k < String.length (elems_k l k))%nat by lia.
    induction IH as [|x l Hx _ IHl]; simpl; [lia|].
    destruct l as [|y l].
    + specialize (Hx (String "]" k)). simpl in *. lia.
    + specialize (Hx (String "," (elems_k (y :: l) k))). simpl in *. lia.
  - rewrite print_k_JObj. simpl.
    enough (String.length k < String.length (members_k l k))%nat by lia.
    induction IH as [|[key v] l Hv _ IHl]; simpl; [lia|].
    destruct l as [|y l].
    + specialize (Hv (String "}" k)).
      pose proof (str_k_length key (String ":" (print_k v (String "}" k)))).
      simpl in *. lia.
    + specialize (Hv (String "," (members_k (y :: l) k))).
      pose proof (str_k_length key
        (String ":" (print_k v (String "," (members_k (y :: l) k))))).
      simpl in *. lia.
Qed.

Lemma elems_k_length (l : list json) (k : string) :
  (String.length k < String.length (elems_k l k))%nat.
Proof.
  induction l as [|x l IH]; simpl; [lia|].
  destruct l as [|y l].
  - pose proof (print_k_length x (String "]" k)). simpl in *. lia.
  - pose proof (print_k_length x (String "," (elems_k (y :: l) k))).
    simpl in *. lia.
Qed.

Lemma members_k_length (l : list (string * json)) (k : string) :
  (String.length k < String.length (members_k l k))%nat.
Proof.
  induction l as [|[key v] l IH]; simpl; [lia|].
  destruct l as [|y l].
  - pose proof (print_k_length v (String "}" k)).
    pose proof (str_k_length key (String ":" (print_k v (String "}" k)))).
    simpl in *. lia.
  - pose proof (print_k_length v (String "," (members_k (y :: l) k))).
    pose proof (str_k_length key
      (String ":" (print_k v (String "," (members_k (y :: l) k))))).
    simpl in *. lia.
Qed.


(** *** Parsing what was printed *)

Lemma parse_value_S (n : nat) (a : ascii) (r : string) :
  is_digit a = true \/ a = "-"%char ->
  parse_value (S n) (String a r) =
  match parse_num (String a r) with
  | Some (z, r') => Some (JNum z, r')
  | None => None
  end.
Proof.
  destruct a as [[] [] [] [] [] [] [] []];
    intros [Ha|Ha]; try discriminate Ha; reflexivity.
Qed.

Lemma num_k_head (z : Z) (k : string) :
  exists a r, num_k z k = String a r /\ (is_digit a = true \/ a = "-"%char).
Proof.
  unfold num_k. destruct (Z.to_int z) as [d|d] eqn:Hz.
  - assert (d <> Decimal.Nil) as Hd.
    { destruct z; simpl in Hz; try discriminate Hz; injection Hz as <-;
        [done|apply Unsigned.to_uint_nonnil]. }
    destruct d; [done|..]; eexists _, _; (split; [reflexivity|by left]).
  - eexists _, _. split; [reflexivity|by right].
Qed.

Lemma parse_elems_S (n : nat) (s : string) :
  parse_elems (S n) s =
  match parse_value n s with
  | Some (x, String "," r) =>
      match parse_elems n r with
      | Some (l, r') => Some (x :: l, r')
      | None => None
      end
  | Some (x, String "]" r) => Some ([x], r)
  | _ => None
  end.
Proof. reflexivity. Qed.

Lemma parse_members_S (n : nat) (s : string) :
  parse_members (S n) s =
  match parse_str s with
  | Some (key, String ":" r) =>
      match parse_value n r with
      | Some (v, String "," r1) =>
          match parse_members n r1 with
          | Some (l, r') => Some ((key, v) :: l, r')
          | None => None
          end
      | Some (v, String "}" r1) => Some ([(key, v)], r1)
      | _ => None
      end
  | _ => None
  end.
Proof. reflexivity. Qed.

Lemma parse_value_array (n : nat) (r : string) :
  parse_value (S n) (String "[" r) =
  match parse_elems n r with
  | Some (l, r') => Some (JArr l, r')
  | None => match r with
            | String "]" r' => Some (JArr [], r')
            | _ => None
            end
  end.
Proof. reflexivity. Qed.

Lemma parse_value_object (n : nat) (r : string) :
  parse_value (S n) (String "{" r) =
  match parse_members n r with
  | Some (l, r') => Some (JObj l, r')
  | None => match r with
            | String "}" r' => Some (JObj [], r')
            | _ => None
            end
  end.
Proof. reflexivity. Qed.

Lemma parse_elems_close (n : nat) (k : string) :
  parse_elems n (String "]" k) = None.
Proof. destruct n as [|[|n]]; reflexivity. Qed.

Lemma parse_members_close (n : nat) (k : string) :
  parse_members n (String "}" k) = None.
Proof. destruct n as [|n]; reflexivity. Qed.

Lemma length_String (a : ascii) (s : string) :
  String.length (String a s) = S (String.length s).
Proof. reflexivity. Qed.

Definition parses (j : json) : Prop :=
  forall k n, follow k ->
    (String.length (print_k j k) < n + String.length k)%nat ->
    parse_value n (print_k j k) = Some (j, k).

Lemma parse_elems_k (l : list json) :
  l <> [] -> Forall parses l ->
  forall k n, (String.length (elems_k l k) < n + String.length k)%nat ->
    parse_elems n (elems_k l k) = Some (l, k).
Proof.
  intros Hne Hl. induction Hl as [|x l Hx Hl IH]; [done|]. clear Hne.
  intros k n Hn. destruct n as [|n].
  { pose proof (elems_k_length (x :: l) k). lia. }
  rewrite parse_elems_S. destruct l as [|y l].
  - simpl in *. rewrite (Hx (String "]" k) n); [done|done|rewrite !length_String; lia].
  - assert (elems_k (x :: y :: l) k
            = print_k x (String "," (elems_k (y :: l) k))) as Heq by done.
    rewrite Heq in *.
    pose proof (print_k_length x (String "," (elems_k (y :: l) k))) as Hlen.
    pose proof (elems_k_length (y :: l) k) as Hlen'.
    rewrite !length_String in Hlen.
    rewrite (Hx (String "," (elems_k (y :: l) k)) n); [|done|rewrite !length_String; lia].
    rewrite IH; [done|done|lia].
Qed.

Lemma parse_members_k (l : list (string * json)) :
  l <> [] -> Forall (fun kv => parses (snd kv)) l ->
  forall k n, (String.length (members_k l k) < n + String.length k)%nat ->
    parse_members n (members_k l k) = Some (l, k).
Proof.
  intros Hne Hl. induction Hl as [|[key v] l Hv Hl IH]; [done|]. clear Hne.
  intros k n Hn. destruct n as [|n].
  { pose proof (members_k_length ((key, v) :: l) k). lia. }
  rewrite parse_members_S. simpl in Hv. destruct l as [|y l].
  - assert (members_k [(key, v)] k
            = str_k key (String ":" (print_k v (String "}" k)))) as Heq by done.
    rewrite Heq in *. rewrite parse_str_k.
    pose proof (str_k_length key (String ":" (print_k v (String "}" k)))) as Hlen.
    rewrite !length_String in Hlen.
    rewrite (Hv (String "}" k) n); [done|done|rewrite !length_String; lia].
  - assert (members_k ((key, v) :: y :: l) k
            = str_k key (String ":"
                (print_k v (String "," (members_k (y :: l) k))))) as Heq by done.
    rewrite Heq in *. rewrite parse_str_k.
    pose proof (str_k_length key
      (String ":" (print_k v (String "," (members_k (y :: l) k))))) as Hlen.
    pose proof (print_k_length v (String "," (members_k (y :: l) k))) as Hlen'.
    pose proof (members_k_length (y :: l) k) as Hlen''.
    rewrite !length_String in Hlen, Hlen'.
    rewrite (Hv (String "," (members_k (y :: l) k)) n); [|done|rewrite !length_String; lia].
    rewrite IH; [done|done|lia].
Qed.

Lemma parse_print_k (j : json) : parses j.
Proof.
  induction j as [|b|z|s|l IH|l IH] using json_nested_ind; intros k n Hk Hn.
  - destruct n as [|n]; [simpl in Hn; lia|reflexivity].
  - destruct n as [|n]; [destruct b; simpl in Hn; lia|by destruct b].
  - destruct n as [|n].
    { pose proof (print_k_length (JNum z) k). lia. }
    change (print_k (JNum z) k) with (num_k z k).
    destruct (num_k_head z k) as (a & r & Heq & Ha).
    rewrite Heq, (parse_value_S n a r Ha), <- Heq, parse_num_k; done.
  - destruct n as [|n].
    { pose proof (print_k_length (JStr s) k). lia. }
    change (print_k (JStr s) k) with (String quote (esc_k s (String quote k))).
    change (parse_value (S n) (String quote (esc_k s (String quote k))))
      with (match parse_chars (esc_k s (String quote k)) with
            | Some (str, r') => Some (JStr str, r')
            | None => None
            end).
    by rewrite parse_chars_esc.
  - rewrite print_k_JArr in *. rewrite length_String in Hn.
    pose proof (elems_k_length l k) as Hlen.
    destruct n as [|n]; [lia|].
    rewrite parse_value_array. destruct l as [|x l].
    + simpl. by rewrite parse_elems_close.
    + rewrite (parse_elems_k (x :: l)); [done|done|done|lia].
  - rewrite print_k_JObj in *. rewrite length_String in Hn.
    pose proof (members_k_length l k) as Hlen.
    destruct n as [|n]; [lia|].
    rewrite parse_value_object. destruct l as [|x l].
    + simpl. by rewrite parse_members_close.
    + rewrite (parse_members_k (x :: l)); [done|done|done|lia].
Qed.

Theorem parse_stringify (j : json) : parse (stringify j) = Some j.
Proof.
  unfold parse, stringify.
  rewrite (parse_print_k j EmptyString); [done|done|simpl; lia].
Qed.

Lemma stringify_nonempty (j : json) : stringify j <> EmptyString.
Proof.
  unfold stringify. destruct j as [|[]|z|s|l|l]; try done.
  destruct (num_k_head z EmptyString) as (a & r & Heq & _).
  change (print_k (JNum z) EmptyString) with (num_k z EmptyString).
  by rewrite Heq.
Qed.

End Json.

(** [JSON.stringify] and [JSON.parse], as the code relies on them: parsing
    the text of a value gives the value back, and no text is empty. *)
Class JsonCodec := {
  JSON_stringify : json -> string;
  JSON_parse : string -> option json;
  JSON_parse_stringify : forall j, JSON_parse (JSON_stringify j) = Some j;
  JSON_stringify_nonempty : forall j, JSON_stringify j <> EmptyString
}.

#[global] Instance json_codec : JsonCodec := {|
  JSON_stringify := Json.stringify;
  JSON_parse := Json.parse;
  JSON_parse_stringify := Json.parse_stringify;
  JSON_stringify_nonempty := Json.stringify_nonempty
|}.

(** ** Constants, configuration and the cookie store

    [config/constants.ts], [config/config.ts] and [cookies.ts] are imported
    by the two classes; the names and durations are parameters here. *)

Record Constants := {
  UserIdKey : string;
  EventsKey : string;
  SelectedProductIndex : string;
  DeepLinkURL : string;
  PaymentFormContainer : string;
  SelectedProductDuration : Z;
  UserCookieDuration : Z
}.

(** Names and durations to evaluate the operations with. *)
Definition K0 : Constants :=
  {| UserIdKey := "apphud_user_id";
     EventsKey := "apphud_events";
     SelectedProductIndex := "apphud_product_index";
     DeepLinkURL := "apphud_deeplink";
     PaymentFormContainer := "#apphud-payment-form";
     SelectedProductDuration := 1;
     UserCookieDuration := 730 |}.

(** A cookie: its value and the number of days it was stored for. *)
Record Cookie := { cookie_value : string; cookie_days : Z }.

(** Modelled from the spec: the cookie primitives of [cookies.ts], a
    key/value store with a TTL where a write replaces the whole value. *)
Definition setCookie (name value : string) (days : Z)
    (jar : gmap string Cookie) : gmap string Cookie :=
  <[name := {| cookie_value := value; cookie_days := days |}]> jar.

Definition getCookie (name : string) (jar : gmap string Cookie) : jsstring :=
  match jar !! name with
  | Some c => JsString (cookie_value c)
  | None => JsNull
  end.

Definition deleteCookie (name : string) (jar : gmap string Cookie)
    : gmap string Cookie :=
  delete name jar.

(** ** Selection state: placement, paywall, product *)

Module Selection.

Record Product := {
  product_id : string;
  base_plan_id : string;
  properties : option json
}.

Record Paywall := {
  paywall_id : string;
  items : list Product
}.

Record Placement := {
  placement_id : string;
  identifier : string;
  paywalls : list Paywall
}.

(** The fields of [ApphudSDK] that the selection code reads and writes,
    the cookie jar, and the [product_changed] payloads emitted so far. *)
Record State := {
  placements : list Placement;
  _currentProduct : option Product;
  _currentPlacement : option Placement;
  _currentPaywall : option Paywall;
  cookies : gmap string Cookie;
  product_changed : list (js (option Product))
}.

Definition id_matches (id : jsstring) (elm : Placement) : bool :=
  match id with
  | JsString s => String.eqb (identifier elm) s
  | _ => false
  end.

(** [this.placements.find(elm => elm.identifier === id)] *)
Definition findPlacementByID (id : jsstring) (st : State) : option Placement :=
  List.find (id_matches id) (placements st).

Definition set_currentPlacement (v : option Placement) (st : State) : State :=
  {| placements := placements st;
     _currentProduct := _currentProduct st;
     _currentPlacement := v;
     _currentPaywall := _currentPaywall st;
     cookies := cookies st;
     product_changed := product_changed st |}.

Definition set_currentPaywall (v : option Paywall) (st : State) : State :=
  {| placements := placements st;
     _currentProduct := _currentProduct st;
     _currentPlacement := _currentPlacement st;
     _currentPaywall := v;
     cookies := cookies st;
     product_changed := product_changed st |}.

Definition set_currentProduct (v : option Product) (st : State) : State :=
  {| placements := placements st;
     _currentProduct := v;
     _currentPlacement := _currentPlacement st;
     _currentPaywall := _currentPaywall st;
     cookies := cookies st;
     product_changed := product_changed st |}.

Definition setCurrentItems (placementID : string) (productIndex : number)
    (st : State) : js State :=
  let st1 := set_currentPlacement (findPlacementByID (JsString placementID) st) st in
  match _currentPlacement st1 with
  | Some pl =>
      if 0 <? Z.of_nat (length (paywalls pl)) then
        let st2 := set_currentPaywall (paywalls pl !! 0%nat) st1 in
        its ← prop items (_currentPaywall st2);
        Val (set_currentProduct (js_index its productIndex) st2)
      else Val st1
  | None => Val st1
  end.

Definition currentPlacement (st : State) : js (option Placement) :=
  if defined (_currentPlacement st) then Val (_currentPlacement st)
  else
    let placement := placements st !! 0%nat in
    if defined placement then Val placement else Val None.

Definition currentPaywall (st : State) : js (option Paywall) :=
  if defined (_currentPaywall st) then Val (_currentPaywall st)
  else
    placement ← currentPlacement st;
    if defined placement then
      ps ← prop paywalls placement;
      Val (ps !! 0%nat)
    else Val None.

Definition currentProduct (st : State) : js (option Product) :=
  if defined (_currentProduct st) then Val (_currentProduct st)
  else
    paywall ← currentPaywall st;
    if defined paywall then
      its ← prop items paywall;
      Val (its !! 0%nat)
    else Val None.

Section WithConstants.
Variable K : Constants.
(** [u.getValueByPath] of [utils.ts], which is not part of the sources
    at hand: any function from a property bag and a path to a value. *)
Variable getValueByPath : json -> string -> option string.

Definition selectPlacementProduct (placementID : string)
    (productIndex : number) (st : State) : js State :=
  st1 ← setCurrentItems placementID productIndex st;
  let jar := setCookie (SelectedProductIndex K)
               (placementID +:+ "," +:+ number_to_string productIndex)
               (SelectedProductDuration K) (cookies st1) in
  Val {| placements := placements st1;
         _currentProduct := _currentProduct st1;
         _currentPlacement := _currentPlacement st1;
         _currentPaywall := _currentPaywall st1;
         cookies := jar;
         product_changed := product_changed st1 ++ [currentProduct st1] |}.

Definition getSavedPlacementProductIndex (st : State) : jsstring * number :=
  match getCookie (SelectedProductIndex K) (cookies st) with
  | JsString savedIndices =>
      let arr := map JsString.trim (JsString.split "," savedIndices) in
      match arr with
      | [a0; a1] => (JsString a0, JsString.parseInt a1)
      | _ => (JsUndefined, Num 0)
      end
  | _ => (JsUndefined, Num 0)
  end.

Definition is_null (v : jsstring) : bool :=
  match v with
  | JsNull => true
  | _ => false
  end.

Definition readVariableValueByKeyPath (key : string) (st : State)
    : js (option string) :=
  let keyArr := map JsString.trim (JsString.split "," key) in
  let path := default "" (last keyArr) in
  let '(placementID, productIndex) :=
    match keyArr with
    | [k0; k1; _] =>
        let placementID := JsString k0 in
        let productIndex := JsString.parseInt k1 in
        if is_null placementID || js_lt0 productIndex
        then getSavedPlacementProductIndex st
        else (placementID, productIndex)
    | [_] => getSavedPlacementProductIndex st
    | _ => (JsUndefined, Num 0)
    end in
  let placement := findPlacementByID placementID st in
  match placement with
  | None => Val None
  | Some pl =>
      let paywall := paywalls pl !! 0%nat in
      its ← prop items paywall;
      let product := js_index its productIndex in
      match product with
      | Some p =>
          match properties p with
          | Some bag => Val (getValueByPath bag path)
          | None => Val None
          end
      | None => Val None
      end
  end.

End WithConstants.

(** *** The fallback rule in the words of the specification

    An explicit selection wins; otherwise the first item of the parent
    collection, when there is a parent and it is not empty; otherwise no
    value. *)
Definition three_level_fallback {A} (explicit : option A)
    (parent : option (list A)) : option A :=
  match explicit with
  | Some v => Some v
  | None =>
      match parent with
      | Some (first :: _) => Some first
      | _ => None
      end
  end.

(** *** A session to evaluate the operations on

    Three placements: the first has one paywall with two products, the
    second one paywall with one product, the third no paywall at all. *)
Definition bag (title : string) : json := JObj [("title", JStr title)].

Definition monthly : Product :=
  {| product_id := "p-month"; base_plan_id := "price_month";
     properties := Some (bag "Monthly") |}.
Definition yearly : Product :=
  {| product_id := "p-year"; base_plan_id := "price_year";
     properties := Some (bag "Yearly") |}.
Definition lifetime : Product :=
  {| product_id := "p-life"; base_plan_id := "price_life";
     properties := Some (bag "Lifetime") |}.

Definition main_paywall : Paywall :=
  {| paywall_id := "pw-main"; items := [monthly; yearly] |}.
Definition promo_paywall : Paywall :=
  {| paywall_id := "pw-promo"; items := [lifetime] |}.

Definition main_placement : Placement :=
  {| placement_id := "1"; identifier := "main"; paywalls := [main_paywall] |}.
Definition promo_placement : Placement :=
  {| placement_id := "2"; identifier := "promo"; paywalls := [promo_paywall] |}.
Definition bare_placement : Placement :=
  {| placement_id := "3"; identifier := "bare"; paywalls := [] |}.

Definition session (ps : list Placement) : State :=
  {| placements := ps;
     _currentProduct := None;
     _currentPlacement := None;
     _currentPaywall := None;
     cookies := ∅;
     product_changed := [] |}.

(** Reads the ["title"] entry of a property bag; stands for
    [getValueByPath] where a concrete one is needed. *)
Definition title_of (b : json) (path : string) : option string :=
  match b with
  | JObj [(k, JStr v)] => if String.eqb k path then Some v else None
  | _ => None
  end.

(** *** Properties *)

Lemma currentPlacement_fallback (st : State) :
  currentPlacement st =
  Val (three_level_fallback (_currentPlacement st) (Some (placements st))).
Proof.
  unfold currentPlacement.
  destruct (_currentPlacement st) as [p|]; simpl; [done|].
  by destruct (placements st).
Qed.

Lemma currentPaywall_fallback (st : State) (pl : option Placement) :
  currentPlacement st = Val pl ->
  currentPaywall st =
  Val (three_level_fallback (_currentPaywall st) (paywalls <$> pl)).
Proof.
  intros Hpl. unfold currentPaywall. rewrite Hpl.
  destruct (_currentPaywall st) as [w|]; simpl; [done|].
  destruct pl as [p|]; simpl; [|done].
  by destruct (paywalls p).
Qed.

Lemma currentProduct_fallback (st : State) (pw : option Paywall) :
  currentPaywall st = Val pw ->
  currentProduct st =
  Val (three_level_fallback (_currentProduct st) (items <$> pw)).
Proof.
  intros Hpw. unfold currentProduct. rewrite Hpw.
  destruct (_currentProduct st) as [p|]; simpl; [done|].
  destruct pw as [w|]; simpl; [|done].
  by destruct (items w).
Qed.

Lemma fallback_parent_nonempty {A} (explicit : option A) (parent : list A) :
  parent <> [] -> is_Some (three_level_fallback explicit (Some parent)).
Proof.
  intros Hne. destruct explicit; simpl; [by eexists|].
  destruct parent; [done | by eexists].
Qed.

(** C5. [currentPlacement()], [currentPaywall()] and [currentProduct()]
    each return, without raising, the explicit selection when one is set,
    otherwise the first item of the parent collection (the session's
    placements, the current placement's paywalls, the current paywall's
    items), otherwise no value; so a value comes back whenever the parent
    collection holds anything. *)
Theorem current_items_three_level_fallback (st : State) :
  exists pl pw pr,
    currentPlacement st = Val pl /\
    currentPaywall st = Val pw /\
    currentProduct st = Val pr /\
    pl = three_level_fallback (_currentPlacement st) (Some (placements st)) /\
    pw = three_level_fallback (_currentPaywall st) (paywalls <$> pl) /\
    pr = three_level_fallback (_currentProduct st) (items <$> pw) /\
    (placements st <> [] -> is_Some pl) /\
    (forall p, pl = Some p -> paywalls p <> [] -> is_Some pw) /\
    (forall w, pw = Some w -> items w <> [] -> is_Some pr).
Proof.
  pose proof (currentPlacement_fallback st) as Hpl.
  pose proof (currentPaywall_fallback st _ Hpl) as Hpw.
  pose proof (currentProduct_fallback st _ Hpw) as Hpr.
  do 3 eexists.
  split; [exact Hpl|]. split; [exact Hpw|]. split; [exact Hpr|].
  do 3 (split; [reflexivity|]).
  split; [apply fallback_parent_nonempty|].
  split.
  - intros p -> Hne. simpl. by apply fallback_parent_nonempty.
  - intros w -> Hne. simpl. by apply fallback_parent_nonempty.
Qed.

Section SelectionFacts.
Variable K : Constants.

Lemma setCurrentItems_unknown (unknown : string) (idx : number) (st : State) :
  findPlacementByID (JsString unknown) st = None ->
  setCurrentItems unknown idx st = Val (set_currentPlacement None st).
Proof. intros Hnone. unfold setCurrentItems. by rewrite Hnone. Qed.

Lemma setCurrentItems_known (pid : string) (idx : number) (st : State)
    (pl : Placement) (w : Paywall) (ws : list Paywall) :
  findPlacementByID (JsString pid) st = Some pl ->
  paywalls pl = w :: ws ->
  setCurrentItems pid idx st =
  Val (set_currentProduct (js_index (items w) idx)
         (set_currentPaywall (Some w) (set_currentPlacement (Some pl) st))).
Proof.
  intros Hfind Hpw. unfold setCurrentItems. rewrite Hfind. simpl.
  by rewrite Hpw.
Qed.

(** The selection never raises: the only property read on a possibly
    missing object, [this._currentPaywall.items], is behind the
    [paywalls.length > 0] guard. *)
Lemma setCurrentItems_total (pid : string) (idx : number) (st : State) :
  exists st', setCurrentItems pid idx st = Val st' /\
              placements st' = placements st.
Proof.
  unfold setCurrentItems. simpl.
  destruct (findPlacementByID (JsString pid) st) as [pl|]; [|by eexists].
  destruct (paywalls pl) as [|w ws]; simpl; by eexists.
Qed.

Lemma selectPlacementProduct_unfold (pid : string) (idx : number)
    (st st1 : State) :
  setCurrentItems pid idx st = Val st1 ->
  exists st2, selectPlacementProduct K pid idx st = Val st2 /\
    placements st2 = placements st1 /\
    _currentPlacement st2 = _currentPlacement st1 /\
    _currentPaywall st2 = _currentPaywall st1 /\
    _currentProduct st2 = _currentProduct st1 /\
    product_changed st2 = product_changed st1 ++ [currentProduct st1] /\
    getCookie (SelectedProductIndex K) (cookies st2) =
      JsString (pid +:+ "," +:+ number_to_string idx).
Proof.
  intros Hset. unfold selectPlacementProduct. rewrite Hset. simpl.
  eexists. split; [reflexivity|]. simpl. repeat split.
  unfold getCookie, setCookie. by rewrite lookup_insert_eq.
Qed.

(** The three getters read the selection slots and the placement list,
    nothing else. *)
Lemma currentProduct_ext (st st' : State) :
  placements st' = placements st ->
  _currentPlacement st' = _currentPlacement st ->
  _currentPaywall st' = _currentPaywall st ->
  _currentProduct st' = _currentProduct st ->
  currentPlacement st' = currentPlacement st /\
  currentPaywall st' = currentPaywall st /\
  currentProduct st' = currentProduct st.
Proof.
  intros Hp Hpl Hpw Hpr.
  unfold currentProduct, currentPaywall, currentPlacement.
  by rewrite Hp, Hpl, Hpw, Hpr.
Qed.

Lemma currentProduct_explicit_paywall (st : State) (w : Paywall) :
  _currentPaywall st = Some w ->
  currentProduct st =
  Val (three_level_fallback (_currentProduct st) (Some (items w))).
Proof.
  intros Hw.
  apply (currentProduct_fallback st (Some w)).
  unfold currentPaywall. by rewrite Hw.
Qed.

(** C6. After a selection of a known placement (one that has a paywall),
    selecting an id that is not in the session's placement list raises
    nothing and leaves [currentProduct()] at the value it had after the
    first selection; that value is the item the first selection picked. *)
Theorem select_unknown_keeps_current_product
    (st : State) (pid unknown : string) (idx idx' : number) (pl : Placement) :
  findPlacementByID (JsString pid) st = Some pl ->
  paywalls pl <> [] ->
  findPlacementByID (JsString unknown) st = None ->
  exists st1 st2,
    selectPlacementProduct K pid idx st = Val st1 /\
    selectPlacementProduct K unknown idx' st1 = Val st2 /\
    currentProduct st2 = currentProduct st1 /\
    (exists v, currentProduct st2 = Val v) /\
    (forall w p, paywalls pl !! 0%nat = Some w ->
                 js_index (items w) idx = Some p ->
                 currentProduct st2 = Val (Some p)).
Proof.
  intros Hfind Hne Hunknown.
  destruct (paywalls pl) as [|w ws] eqn:Hpw; [done|].
  pose proof (setCurrentItems_known pid idx st pl w ws Hfind Hpw) as Hset.
  destruct (selectPlacementProduct_unfold _ _ _ _ Hset)
    as (st1 & Hsel1 & Hp1 & Hpl1 & Hpw1 & Hpr1 & _ & _).
  simpl in Hp1, Hpl1, Hpw1, Hpr1.
  assert (findPlacementByID (JsString unknown) st1 = None) as Hunknown1.
  { unfold findPlacementByID in *. by rewrite Hp1. }
  pose proof (setCurrentItems_unknown unknown idx' st1 Hunknown1) as Hset2.
  destruct (selectPlacementProduct_unfold _ _ _ _ Hset2)
    as (st2 & Hsel2 & Hp2 & Hpl2 & Hpw2 & Hpr2 & _ & _).
  simpl in Hp2, Hpl2, Hpw2, Hpr2.
  assert (currentProduct st2 = currentProduct st1) as Hsame.
  { rewrite (currentProduct_explicit_paywall st2 w) by congruence.
    rewrite (currentProduct_explicit_paywall st1 w) by congruence.
    by rewrite Hpr2. }
  exists st1, st2. split; [done|]. split; [done|]. split; [done|].
  rewrite Hsame, (currentProduct_explicit_paywall st1 w) by congruence.
  split; [by eexists|].
  intros w' p Hw' Hp. simpl in Hw'. injection Hw' as <-.
  by rewrite Hpr1, Hp.
Qed.


(** C10. Selecting an id that is not in the session's placement list
    clears the stored placement, so [currentPlacement()] is the session's
    first placement, and keeps the stored paywall and product; after a
    selection in the second placement the exposed triple therefore names
    the first placement together with the paywall and product of the
    second. *)
Theorem select_unknown_splits_selection :
  (forall (st : State) (unknown : string) (idx : number),
     findPlacementByID (JsString unknown) st = None ->
     exists st',
       selectPlacementProduct K unknown idx st = Val st' /\
       _currentPlacement st' = None /\
       currentPlacement st' = Val (placements st !! 0%nat) /\
       _currentPaywall st' = _currentPaywall st /\
       _currentProduct st' = _currentProduct st) /\
  (exists st1 st2,
     selectPlacementProduct K "promo" (Num 0)
       (session [main_placement; promo_placement]) = Val st1 /\
     selectPlacementProduct K "unknown-id" (Num 0) st1 = Val st2 /\
     currentPlacement st1 = Val (Some promo_placement) /\
     currentPlacement st2 = Val (Some main_placement) /\
     currentPaywall st2 = Val (Some promo_paywall) /\
     currentProduct st2 = Val (Some lifetime) /\
     (promo_paywall ∈ paywalls promo_placement) /\
     (promo_paywall ∉ paywalls main_placement) /\
     (lifetime ∉ items main_paywall)).
Proof.
  split.
  - intros st unknown idx Hunknown.
    pose proof (setCurrentItems_unknown unknown idx st Hunknown) as Hset.
    destruct (selectPlacementProduct_unfold _ _ _ _ Hset)
      as (st' & Hsel & Hp & Hpl & Hpw & Hpr & _ & _).
    simpl in Hp, Hpl, Hpw, Hpr.
    exists st'. split; [done|]. split; [done|]. split; [|done].
    rewrite currentPlacement_fallback, Hpl, Hp. simpl.
    by destruct (placements st).
  - do 2 eexists. split; [reflexivity|]. split; [reflexivity|].
    do 4 (split; [reflexivity|]).
    split; [apply list_elem_of_here|].
    split.
    + intros Hin. apply list_elem_of_singleton in Hin. discriminate Hin.
    + intros Hin. apply elem_of_cons in Hin as [Heq|Hin]; [discriminate Heq|].
      apply list_elem_of_singleton in Hin. discriminate Hin.
Qed.


Variable getValueByPath : json -> string -> option string.

Lemma getSaved_after_select (pid : string) (idx : number) (st st1 : State) :
  selectPlacementProduct K pid idx st = Val st1 ->
  getCookie (SelectedProductIndex K) (cookies st1) =
  JsString (pid +:+ "," +:+ number_to_string idx).
Proof.
  intros Hsel.
  destruct (setCurrentItems_total pid idx st) as (st0 & Hset & _).
  destruct (selectPlacementProduct_unfold _ _ _ _ Hset)
    as (st2 & Hsel2 & _ & _ & _ & _ & _ & Hcookie).
  congruence.
Qed.

(** C7, where the code departs from it. The persisted selection is
    [("main", 1)]; the bare path ["title"] resolves against it and reads
    the second product's bag, but the composite key [",0,title"] does not
    fall back to it: the id part is the empty string, which is not [null],
    so the lookup is for a placement named [""] and yields no value. And
    with nothing persisted the bare path yields no value either, although
    the default selection, [currentProduct()], is the first product: the
    default is the pair [(undefined, 0)], and no placement is found for
    [undefined]. *)
Theorem readVariable_empty_id_ignores_saved_selection :
  (exists st1,
     selectPlacementProduct K "main" (Num 1) (session [main_placement]) = Val st1 /\
     getSavedPlacementProductIndex K st1 = (JsString "main", Num 1) /\
     readVariableValueByKeyPath K getValueByPath "title" st1
       = Val (getValueByPath (bag "Yearly") "title") /\
     readVariableValueByKeyPath K getValueByPath ",0,title" st1 = Val None) /\
  getSavedPlacementProductIndex K (session [main_placement]) = (JsUndefined, Num 0) /\
  currentProduct (session [main_placement]) = Val (Some monthly) /\
  readVariableValueByKeyPath K getValueByPath "title" (session [main_placement])
    = Val None.
Proof.
  split; [|by repeat split].
  destruct (setCurrentItems_total "main" (Num 1) (session [main_placement]))
    as (st0 & Hset & Hp0).
  destruct (selectPlacementProduct_unfold _ _ _ _ Hset)
    as (st1 & Hsel & Hp & _ & _ & _ & _ & Hcookie).
  assert (getSavedPlacementProductIndex K st1 = (JsString "main", Num 1)) as Hsaved.
  { unfold getSavedPlacementProductIndex. by rewrite Hcookie. }
  assert (placements st1 = [main_placement]) as Hps by (by rewrite Hp, Hp0).
  exists st1. split; [done|]. split; [done|]. split.
  - unfold readVariableValueByKeyPath. simpl. rewrite Hsaved.
    unfold findPlacementByID. by rewrite Hps.
  - unfold readVariableValueByKeyPath. simpl.
    unfold findPlacementByID. by rewrite Hps.
Qed.

(** The same function raises when the placement it resolves has no
    paywall: [placement.paywalls[0]] is [undefined] and its [items] are
    read unguarded. *)
Example readVariable_no_paywall_raises :
  readVariableValueByKeyPath K getValueByPath "bare,0,title"
    (session [bare_placement]) = TypeError.
Proof. reflexivity. Qed.

(** What does work as documented: a composite key selects its own
    placement and product, a negative index falls back to the persisted
    selection, a product or a bag that is missing yields no value. *)
Example readVariable_composite :
  readVariableValueByKeyPath K title_of "main,1,title" (session [main_placement])
    = Val (Some "Yearly") /\
  readVariableValueByKeyPath K title_of "main,7,title" (session [main_placement])
    = Val None /\
  readVariableValueByKeyPath K title_of "main,1,price" (session [main_placement])
    = Val None /\
  readVariableValueByKeyPath K title_of "title" (session [main_placement])
    = Val None.
Proof. repeat split; reflexivity. Qed.

End SelectionFacts.

(** The scenario of the specification: one placement, one paywall, two
    products; select [("main", 1)], then an unknown id. *)
Lemma select_unknown_keeps_current_product_witness :
  findPlacementByID (JsString "main") (session [main_placement])
    = Some main_placement /\
  paywalls main_placement <> [] /\
  findPlacementByID (JsString "unknown-id") (session [main_placement]) = None /\
  exists st1 st2,
    selectPlacementProduct K0 "main" (Num 1) (session [main_placement]) = Val st1 /\
    selectPlacementProduct K0 "unknown-id" (Num 0) st1 = Val st2 /\
    currentProduct st2 = currentProduct st1 /\
    (exists v, currentProduct st2 = Val v) /\
    (forall w p, paywalls main_placement !! 0%nat = Some w ->
                 js_index (items w) (Num 1) = Some p ->
                 currentProduct st2 = Val (Some p)).
Proof.
  split; [reflexivity|]. split; [discriminate|]. split; [reflexivity|].
  apply (select_unknown_keeps_current_product K0 (session [main_placement])
           "main" "unknown-id" (Num 1) (Num 0) main_placement);
    [reflexivity | discriminate | reflexivity].
Defined.

Lemma select_unknown_splits_selection_witness :
  findPlacementByID (JsString "unknown-id")
    (set_currentPaywall (Some promo_paywall)
       (session [main_placement; promo_placement])) = None /\
  exists st',
    selectPlacementProduct K0 "unknown-id" (Num 0)
      (set_currentPaywall (Some promo_paywall)
         (session [main_placement; promo_placement])) = Val st' /\
    _currentPlacement st' = None /\
    currentPlacement st' = Val (Some main_placement) /\
    _currentPaywall st' = Some promo_paywall /\
    _currentProduct st' = None.
Proof.
  split; [reflexivity|].
  exact (proj1 (select_unknown_splits_selection K0)
           (set_currentPaywall (Some promo_paywall)
              (session [main_placement; promo_placement]))
           "unknown-id" (Num 0) eq_refl).
Defined.

Example currentProduct_default :
  currentProduct (session [main_placement]) = Val (Some monthly).
Proof. reflexivity. Qed.

Example currentProduct_empty_session :
  currentProduct (session []) = Val None /\
  currentPaywall (session [bare_placement]) = Val None.
Proof. split; reflexivity. Qed.

End Selection.

(** ** Readiness gate and callback queue *)

Module ReadyGate.

(** What running a callback does, as far as the gate can tell: it returns,
    it throws, or it calls [ready(fn)] and carries on with the rest of its
    body. *)
Inductive body :=
| Return
| Throw
| CallReady (id : nat) (fn : body) (rest : body).

(** A function handed to [ready]. [cb_id] names the submission in the two
    logs below. *)
Record callback := { cb_id : nat; cb_body : body }.

(** [isReady] and [queue] are the fields of [ApphudSDK]; [ready_events]
    counts the emissions of the ["ready"] lifecycle event. [submitted] logs
    the calls of [ready] in the order they are made, [executed] the
    callbacks in the order they are entered; the code has neither log. *)
Record Gate := {
  isReady : bool;
  queue : list callback;
  ready_events : nat;
  submitted : list nat;
  executed : list nat
}.

Definition init : Gate :=
  {| isReady := false; queue := []; ready_events := 0;
     submitted := []; executed := [] |}.

(** A call returns, or an exception leaves it; either way the state is
    what the call made of it so far. *)
Inductive outcome :=
| Normal (st : Gate)
| Thrown (st : Gate).

Definition state_of (o : outcome) : Gate :=
  match o with
  | Normal st => st
  | Thrown st => st
  end.

Definition set_isReady (b : bool) (st : Gate) : Gate :=
  {| isReady := b; queue := queue st; ready_events := ready_events st;
     submitted := submitted st; executed := executed st |}.

Definition set_queue (q : list callback) (st : Gate) : Gate :=
  {| isReady := isReady st; queue := q; ready_events := ready_events st;
     submitted := submitted st; executed := executed st |}.

(** [this.queue.push(callback)] *)
Definition push (c : callback) (st : Gate) : Gate :=
  set_queue (queue st ++ [c]) st.

Definition log_submitted (id : nat) (st : Gate) : Gate :=
  {| isReady := isReady st; queue := queue st; ready_events := ready_events st;
     submitted := submitted st ++ [id]; executed := executed st |}.

Definition log_executed (id : nat) (st : Gate) : Gate :=
  {| isReady := isReady st; queue := queue st; ready_events := ready_events st;
     submitted := submitted st; executed := executed st ++ [id] |}.

(** Running a body. At [CallReady] the body of [ready] is inlined (see
    [call_CallReady]): the nested callback runs at once when the gate is
    open and is queued otherwise; an exception of the nested callback is
    not caught by [ready] and ends the enclosing body too. *)
Fixpoint call (b : body) (st : Gate) : outcome :=
  match b with
  | Return => Normal st
  | Throw => Thrown st
  | CallReady id fn rest =>
      let st1 := log_submitted id st in
      if isReady st1 then
        match call fn (log_executed id st1) with
        | Normal st2 => call rest st2
        | Thrown st2 => Thrown st2
        end
      else call rest (push {| cb_id := id; cb_body := fn |} st1)
  end.

(** [callback()] *)
Definition run_callback (c : callback) (st : Gate) : outcome :=
  call (cb_body c) (log_executed (cb_id c) st).

Definition ready (c : callback) (st : Gate) : outcome :=
  let st1 := log_submitted (cb_id c) st in
  if isReady st1 then run_callback c st1
  else Normal (push c st1).

(** The termination measure of the drain: every callback still to be
    entered, queued or nested in a queued one. *)
Fixpoint bsize (b : body) : nat :=
  match b with
  | CallReady _ fn rest => S (bsize fn + bsize rest)
  | _ => 0%nat
  end.

Definition qweight (q : list callback) : nat :=
  sum_list_with (fun c => S (bsize (cb_body c))) q.

Lemma call_weight (b : body) (st : Gate) :
  (qweight (queue (state_of (call b st))) <= qweight (queue st) + bsize b)%nat.
Proof.
  revert st. induction b as [| |id fn IHfn rest IHrest]; intros st; simpl; try lia.
  destruct (isReady st).
  - specialize (IHfn (log_executed id (log_submitted id st))).
    destruct (call fn _) as [st2|st2]; simpl in *.
    + specialize (IHrest st2). lia.
    + lia.
  - specialize (IHrest (push {| cb_id := id; cb_body := fn |} (log_submitted id st))).
    simpl in IHrest. unfold qweight in *.
    rewrite sum_list_with_app in IHrest. simpl in IHrest. lia.
Qed.

(** [while ((callback = this.queue.shift())) { callback(); }]: the loop
    reads the queue afresh at every turn, so what a callback pushes is
    consumed by the same loop. An exception of [callback()] leaves the
    loop. *)
Equations? drain (st : Gate) : outcome by wf (qweight (queue st)) lt :=
  drain st with inspect (queue st) => {
    | exist _ [] _ => Normal st
    | exist _ (c :: q) Hq with inspect (run_callback c (set_queue q st)) => {
        | exist _ (Normal st') Hc => drain st'
        | exist _ (Thrown st') Hc => Thrown st' } }.
Proof.
  pose proof (call_weight (cb_body c) (log_executed (cb_id c) (set_queue q st))) as Hw.
  unfold run_callback in Hc. rewrite Hc in Hw. simpl in Hw.
  rewrite Hq. unfold qweight in *. simpl. lia.
Qed.

Definition emit_ready (initial : bool) (st : Gate) : Gate :=
  {| isReady := isReady st; queue := queue st;
     ready_events := if initial then S (ready_events st) else ready_events st;
     submitted := submitted st; executed := executed st |}.

Definition setReady (initial : bool) (st : Gate) : outcome :=
  match drain st with
  | Normal st' => Normal (emit_ready initial (set_isReady true st'))
  | Thrown st' => Thrown st'
  end.

(** A sequence of calls made one after the other by the surrounding code.
    An exception of one call is the caller's to deal with; the next call
    finds the state as the failed one left it. [OpCloseGate] is
    [this.isReady = false], the first statement of the
    [createUser(null, false)] with which [initializeApp] starts, some time
    before its [setReady]. *)
Inductive op :=
| OpReady (c : callback)
| OpSetReady (initial : bool)
| OpCloseGate.

Definition step (o : op) (st : Gate) : outcome :=
  match o with
  | OpReady c => ready c st
  | OpSetReady initial => setReady initial st
  | OpCloseGate => Normal (set_isReady false st)
  end.

Definition run (ops : list op) (st : Gate) : Gate :=
  foldl (fun st o => state_of (step o st)) st ops.

(** Bodies in which no [Throw] is ever reached. *)
Fixpoint returns (b : body) : bool :=
  match b with
  | Return => true
  | Throw => false
  | CallReady _ fn rest => returns fn && returns rest
  end.

Definition op_returns (o : op) : bool :=
  match o with
  | OpReady c => returns (cb_body c)
  | OpSetReady _ => true
  | OpCloseGate => true
  end.

(** Every submission a body, a callback, an operation gives rise to. *)
Fixpoint body_ids (b : body) : list nat :=
  match b with
  | CallReady id fn rest => id :: body_ids fn ++ body_ids rest
  | _ => []
  end.

Definition callback_ids (c : callback) : list nat :=
  cb_id c :: body_ids (cb_body c).

Definition op_ids (o : op) : list nat :=
  match o with
  | OpReady c => callback_ids c
  | OpSetReady _ => []
  | OpCloseGate => []
  end.

(** *** The loop, one turn at a time *)

Lemma drain_nil (st : Gate) : queue st = [] -> drain st = Normal st.
Proof.
  intros Hq. funelim (drain st); [reflexivity | congruence | congruence].
Qed.

Lemma drain_cons (st : Gate) (c : callback) (q : list callback) :
  queue st = c :: q ->
  drain st = match run_callback c (set_queue q st) with
             | Normal st' => drain st'
             | Thrown st' => Thrown st'
             end.
Proof.
  intros Hq0. funelim (drain st); try congruence.
  - assert (c0 = c /\ q0 = q) as [-> ->] by (split; congruence).
    by rewrite Hc.
  - assert (c0 = c /\ q0 = q) as [-> ->] by (split; congruence).
    by rewrite Hc.
Qed.

Lemma call_CallReady (id : nat) (fn rest : body) (st : Gate) :
  call (CallReady id fn rest) st =
  match ready {| cb_id := id; cb_body := fn |} st with
  | Normal st2 => call rest st2
  | Thrown st2 => Thrown st2
  end.
Proof.
  unfold ready, run_callback. simpl. by destruct (isReady st).
Qed.

Lemma call_isReady (b : body) (st : Gate) :
  isReady (state_of (call b st)) = isReady st.
Proof.
  revert st. induction b as [| |id fn IHfn rest IHrest]; intros st; simpl; try done.
  destruct (isReady st) eqn:Hr.
  - specialize (IHfn (log_executed id (log_submitted id st))).
    destruct (call fn _) as [st2|st2]; simpl in *.
    + rewrite IHrest. congruence.
    + congruence.
  - by rewrite IHrest.
Qed.

(** *** First in, first out

    What has been submitted is what has been entered, followed by what is
    waiting in the queue, in that order; and nothing waits while the gate
    is open. This holds whether or not callbacks throw. *)
Definition fifo (st : Gate) : Prop :=
  submitted st = executed st ++ (cb_id <$> queue st) /\
  (isReady st = true -> queue st = []).

Lemma call_fifo (b : body) (st : Gate) :
  fifo st -> fifo (state_of (call b st)).
Proof.
  revert st. induction b as [| |id fn IHfn rest IHrest]; intros st Hst; simpl; try done.
  destruct Hst as [Hlog Hopen].
  destruct (isReady st) eqn:Hr.
  - assert (fifo (log_executed id (log_submitted id st))) as Hin.
    { split; simpl; [|by intros _; apply Hopen].
      rewrite Hlog, Hopen by done. simpl. by rewrite !app_nil_r. }
    specialize (IHfn _ Hin).
    destruct (call fn _) as [st2|st2]; simpl in *; [by apply IHrest | done].
  - apply IHrest. split; simpl; [|congruence].
    rewrite Hlog, fmap_app. simpl. by rewrite app_assoc.
Qed.

Lemma run_callback_fifo (c : callback) (q : list callback) (st : Gate) :
  fifo st -> queue st = c :: q ->
  fifo (state_of (run_callback c (set_queue q st))).
Proof.
  intros [Hlog Hopen] Hq. apply call_fifo. split; simpl.
  - rewrite Hlog, Hq. simpl. by rewrite <- app_assoc.
  - intros Hr. specialize (Hopen Hr). congruence.
Qed.

Lemma drain_fifo (st : Gate) : fifo st -> fifo (state_of (drain st)).
Proof.
  remember (qweight (queue st)) as n eqn:Hn.
  revert st Hn. induction (lt_wf n) as [n _ IH]. intros st -> Hst.
  destruct (queue st) as [|c q] eqn:Hq.
  - by rewrite drain_nil.
  - rewrite (drain_cons st c q Hq).
    pose proof (run_callback_fifo c q st Hst Hq) as Hnext.
    pose proof (call_weight (cb_body c) (log_executed (cb_id c) (set_queue q st))) as Hw.
    unfold run_callback in *.
    destruct (call (cb_body c) _) as [st'|st']; simpl in *; [|done].
    eapply IH; [|reflexivity|done].
    unfold qweight in *. simpl. lia.
Qed.

Lemma drain_isReady (st : Gate) : isReady (state_of (drain st)) = isReady st.
Proof.
  remember (qweight (queue st)) as n eqn:Hn.
  revert st Hn. induction (lt_wf n) as [n _ IH]. intros st ->.
  destruct (queue st) as [|c q] eqn:Hq.
  - by rewrite drain_nil.
  - rewrite (drain_cons st c q Hq).
    pose proof (call_isReady (cb_body c) (log_executed (cb_id c) (set_queue q st))) as Hr.
    pose proof (call_weight (cb_body c) (log_executed (cb_id c) (set_queue q st))) as Hw.
    unfold run_callback in *.
    destruct (call (cb_body c) _) as [st'|st']; simpl in *; [|done].
    rewrite <- Hr. eapply IH; [|reflexivity].
    unfold qweight in *. simpl. lia.
Qed.

Lemma drain_normal_empty (st st' : Gate) :
  drain st = Normal st' -> queue st' = [].
Proof.
  remember (qweight (queue st)) as n eqn:Hn.
  revert st Hn. induction (lt_wf n) as [n _ IH]. intros st -> Hdr.
  destruct (queue st) as [|c q] eqn:Hq.
  - rewrite drain_nil in Hdr by done. congruence.
  - rewrite (drain_cons st c q Hq) in Hdr.
    pose proof (call_weight (cb_body c) (log_executed (cb_id c) (set_queue q st))) as Hw.
    unfold run_callback in *.
    destruct (call (cb_body c) _) as [st1|st1]; simpl in *; [|done].
    eapply (IH (qweight (queue st1))); [|reflexivity|exact Hdr].
    unfold qweight in *. simpl. lia.
Qed.

Lemma ready_fifo (c : callback) (st : Gate) :
  fifo st -> fifo (state_of (ready c st)).
Proof.
  intros [Hlog Hopen]. unfold ready, run_callback. simpl.
  destruct (isReady st) eqn:Hr; simpl.
  - apply call_fifo. split; simpl; [|by intros _; apply Hopen].
    rewrite Hlog, Hopen by done. simpl. by rewrite !app_nil_r.
  - split; simpl; [|congruence].
    rewrite Hlog, fmap_app. simpl. by rewrite app_assoc.
Qed.

Lemma setReady_fifo (initial : bool) (st : Gate) :
  fifo st -> fifo (state_of (setReady initial st)).
Proof.
  intros Hst. unfold setReady. pose proof (drain_fifo st Hst) as Hd.
  destruct (drain st) as [st'|st'] eqn:Hdr; simpl in *; [|done].
  pose proof (drain_normal_empty _ _ Hdr) as Hempty.
  destruct Hd as [Hlog _]. split; simpl; [done|by intros _].
Qed.

Lemma step_fifo (o : op) (st : Gate) : fifo st -> fifo (state_of (step o st)).
Proof.
  destruct o as [c|initial|]; simpl; [apply ready_fifo | apply setReady_fifo |].
  intros [Hlog _]. by split.
Qed.

Lemma init_fifo : fifo init.
Proof. by split. Qed.

Lemma run_fifo (ops : list op) (st : Gate) : fifo st -> fifo (run ops st).
Proof.
  revert st. induction ops as [|o ops IH]; intros st Hst; simpl; [done|].
  apply IH. by apply step_fifo.
Qed.

(** *** Callbacks that return

    [pending st] lists every submission still to come out of the queue:
    the queued callbacks and the ones nested in them. *)
Definition pending (st : Gate) : list nat := queue st ≫= callback_ids.

Definition sound (st : Gate) : Prop :=
  Forall (fun c => returns (cb_body c) = true) (queue st).

Lemma call_returns (b : body) (st : Gate) :
  returns b = true -> sound st ->
  exists st', call b st = Normal st' /\ sound st' /\
    executed st' ++ pending st' ≡ₚ (executed st ++ pending st) ++ body_ids b.
Proof.
  revert st. induction b as [| |id fn IHfn rest IHrest]; intros st Hb Hst; simpl in *.
  - exists st. by rewrite app_nil_r.
  - done.
  - apply andb_prop in Hb as [Hfn Hrest].
    destruct (isReady st) eqn:Hr.
    + destruct (IHfn (log_executed id (log_submitted id st)) Hfn Hst)
        as (st2 & -> & Hs2 & Hp2).
      destruct (IHrest st2 Hrest Hs2) as (st3 & -> & Hs3 & Hp3).
      exists st3. split; [done|]. split; [done|].
      rewrite Hp3, Hp2. unfold pending. simpl.
      rewrite <- !app_assoc. apply Permutation_app_head. simpl.
      apply Permutation_middle.
    + destruct (IHrest (push {| cb_id := id; cb_body := fn |} (log_submitted id st)) Hrest)
        as (st3 & -> & Hs3 & Hp3).
      { unfold sound. simpl. apply Forall_app. split; [done|].
        by apply Forall_singleton. }
      exists st3. split; [done|]. split; [done|].
      rewrite Hp3. unfold pending. simpl. rewrite bind_app. simpl.
      unfold callback_ids at 2. simpl.
      by rewrite !app_nil_r, <- !app_assoc.
Qed.

Lemma drain_returns (st : Gate) :
  sound st ->
  exists st', drain st = Normal st' /\ queue st' = [] /\
    executed st' ≡ₚ executed st ++ pending st.
Proof.
  remember (qweight (queue st)) as n eqn:Hn.
  revert st Hn. induction (lt_wf n) as [n _ IH]. intros st -> Hst.
  destruct (queue st) as [|c q] eqn:Hq.
  - exists st. rewrite drain_nil by done. unfold pending. rewrite Hq. simpl.
    by rewrite app_nil_r.
  - rewrite (drain_cons st c q Hq).
    unfold sound in Hst. rewrite Hq in Hst.
    apply Forall_cons in Hst as [Hc Hq'].
    destruct (call_returns (cb_body c) (log_executed (cb_id c) (set_queue q st)) Hc Hq')
      as (st1 & Hcall & Hs1 & Hp1).
    pose proof (call_weight (cb_body c) (log_executed (cb_id c) (set_queue q st))) as Hw.
    unfold run_callback. rewrite Hcall in *. simpl in Hw.
    destruct (IH (qweight (queue st1))) with (st := st1) as (st' & Hdr & Hempty & Hp');
      [unfold qweight in *; simpl; lia | reflexivity | done |].
    exists st'. split; [done|]. split; [done|].
    rewrite Hp', Hp1. unfold pending. simpl. rewrite Hq. simpl.
    unfold callback_ids at 2.
    rewrite <- !app_assoc. apply Permutation_app_head. simpl.
    apply Permutation_cons; [done|]. apply Permutation_app_comm.
Qed.

(** The state of a gate whose callbacks all return, after the submissions
    [all]. *)
Definition good (all : list nat) (st : Gate) : Prop :=
  fifo st /\ sound st /\ executed st ++ pending st ≡ₚ all.

Lemma ready_good (all : list nat) (c : callback) (st : Gate) :
  good all st -> returns (cb_body c) = true ->
  exists st', ready c st = Normal st' /\ good (all ++ callback_ids c) st'.
Proof.
  intros (Hfifo & Hsound & Hperm) Hc.
  pose proof (ready_fifo c st Hfifo) as Hfifo'.
  unfold ready, run_callback in *. simpl in *.
  destruct (isReady st) eqn:Hr.
  - destruct (call_returns (cb_body c) (log_executed (cb_id c) (log_submitted (cb_id c) st)) Hc Hsound)
      as (st' & Hcall & Hs' & Hp').
    rewrite Hcall in *. exists st'. split; [done|]. split; [done|]. split; [done|].
    rewrite Hp', <- Hperm. unfold pending, callback_ids. simpl.
    rewrite <- !app_assoc. apply Permutation_app_head. simpl.
    apply Permutation_middle.
  - eexists. split; [reflexivity|]. split; [done|]. split.
    + unfold sound. simpl. apply Forall_app. split; [done|].
      by apply Forall_singleton.
    + rewrite <- Hperm. unfold pending. simpl. rewrite bind_app. simpl.
      by rewrite !app_nil_r, <- !app_assoc.
Qed.

Lemma setReady_good (all : list nat) (initial : bool) (st : Gate) :
  good all st ->
  exists st', setReady initial st = Normal st' /\ good all st' /\
    queue st' = [] /\ isReady st' = true.
Proof.
  intros (Hfifo & Hsound & Hperm).
  pose proof (setReady_fifo initial st Hfifo) as Hfifo'.
  unfold setReady in *.
  destruct (drain_returns st Hsound) as (st' & Hdr & Hempty & Hp').
  rewrite Hdr in *. simpl in Hfifo'.
  eexists. split; [reflexivity|]. split; [|by split].
  split; [done|]. split.
  - unfold sound. simpl. rewrite Hempty. constructor.
  - unfold pending. simpl. rewrite Hempty. simpl.
    by rewrite app_nil_r, Hp'.
Qed.

Lemma run_good (ops : list op) (all : list nat) (st : Gate) :
  good all st -> Forall (fun o => op_returns o = true) ops ->
  good (all ++ (ops ≫= op_ids)) (run ops st).
Proof.
  revert all st. induction ops as [|o ops IH]; intros all st Hst Hops; simpl.
  - by rewrite app_nil_r.
  - apply Forall_cons in Hops as [Ho Hops].
    rewrite app_assoc. apply IH; [|done].
    destruct o as [c|initial|]; simpl in *.
    + by destruct (ready_good all c st Hst Ho) as (st' & -> & Hst').
    + destruct (setReady_good all initial st Hst) as (st' & -> & Hst' & _).
      by rewrite app_nil_r.
    + rewrite app_nil_r. destruct Hst as ((Hlog & _) & Hsound & Hperm).
      by repeat split.
Qed.

Lemma init_good : good [] init.
Proof.
  split; [apply init_fifo|]. split; [constructor|done].
Qed.

Lemma setReady_normal (initial : bool) (st st' : Gate) :
  fifo st -> setReady initial st = Normal st' ->
  queue st' = [] /\ isReady st' = true /\ executed st' = submitted st'.
Proof.
  intros Hst Hset. pose proof (setReady_fifo initial st Hst) as Hfifo.
  rewrite Hset in Hfifo. simpl in Hfifo. destruct Hfifo as [Hlog _].
  unfold setReady in Hset. destruct (drain st) as [st0|st0] eqn:Hdr; [|done].
  injection Hset as <-. simpl in *.
  rewrite (drain_normal_empty _ _ Hdr) in *. simpl in Hlog.
  by rewrite app_nil_r in Hlog.
Qed.


(** Two callbacks are queued; the first one submits a third while the
    queue is drained. *)
Definition reentrant_ops : list op :=
  [ OpReady {| cb_id := 1; cb_body := CallReady 3 Return Return |};
    OpReady {| cb_id := 2; cb_body := Return |} ].


Example reentrant_callback_runs_in_same_pass :
  executed (run reentrant_ops init) = [] /\
  executed (run (reentrant_ops ++ [OpSetReady true]) init) = [1; 2; 3]%nat /\
  queue (run (reentrant_ops ++ [OpSetReady true]) init) = [].
Proof. repeat split; reflexivity. Qed.

(** With the gate open a callback runs inside the call of [ready], a
    nested one inside its parent; closed again, they wait for the next
    [setReady()]. *)
Example ready_after_setReady :
  executed (run ([OpSetReady true] ++ reentrant_ops) init) = [1; 3; 2]%nat /\
  submitted (run ([OpSetReady true] ++ reentrant_ops) init) = [1; 3; 2]%nat /\
  executed (run ([OpSetReady true; OpCloseGate] ++ reentrant_ops) init) = [] /\
  executed (run ([OpSetReady true; OpCloseGate] ++ reentrant_ops
                   ++ [OpSetReady false]) init) = [1; 2; 3]%nat.
Proof. repeat split; reflexivity. Qed.

(** *** A callback that throws *)

(** While the gate is closed a body enters nothing: it can only append to
    the queue. *)
Lemma call_closed (b : body) (st : Gate) :
  isReady st = false ->
  executed (state_of (call b st)) = executed st /\
  ready_events (state_of (call b st)) = ready_events st /\
  exists enq, queue (state_of (call b st)) = queue st ++ enq.
Proof.
  revert st. induction b as [| |id fn IHfn rest IHrest]; intros st Hr; simpl.
  - split; [done|]. split; [done|]. exists []. by rewrite app_nil_r.
  - split; [done|]. split; [done|]. exists []. by rewrite app_nil_r.
  - rewrite Hr.
    destruct (IHrest (push {| cb_id := id; cb_body := fn |} (log_submitted id st)) Hr)
      as (He & Hev & enq & Hq).
    split; [done|]. split; [done|].
    eexists. rewrite Hq. simpl. by rewrite <- app_assoc.
Qed.

Definition throwing_ops : list op :=
  [ OpReady {| cb_id := 1; cb_body := Throw |};
    OpReady {| cb_id := 2; cb_body := Return |} ].




End ReadyGate.

(** ** Event delivery queue *)

Module EventQueue.

(** An [EventData] object. [user_id] and [device_id] are set when the
    gate lets the event through and deleted when it is sent; [id] is the
    field [trackEvent] compares, which [track] never sets. *)
Record EventData := {
  name : string;
  properties : json;
  user_properties : json;
  timestamp : Z;
  insert_id : string;
  user_id : option string;
  device_id : option string;
  id : option string
}.

(** The argument of [api.createEvent]. *)
Record Events := {
  events : list EventData;
  events_device_id : option string;
  events_user_id : option string
}.

(** *** Event objects as JSON

    [JSON.stringify] writes the properties an object has; a property that
    was never set, was set to [undefined] or was deleted is left out. *)
Definition opt_field (k : string) (v : option string) : list (string * json) :=
  match v with
  | Some s => [(k, JStr s)]
  | None => []
  end.

Definition event_to_json (e : EventData) : json :=
  JObj ([ ("name", JStr (name e));
          ("properties", properties e);
          ("user_properties", user_properties e);
          ("timestamp", JNum (timestamp e));
          ("insert_id", JStr (insert_id e)) ]
        ++ opt_field "user_id" (user_id e)
        ++ opt_field "device_id" (device_id e)
        ++ opt_field "id" (id e)).

Fixpoint field (k : string) (fields : list (string * json)) : option json :=
  match fields with
  | [] => None
  | (k', v) :: rest => if String.eqb k' k then Some v else field k rest
  end.

Definition str_field (k : string) (fields : list (string * json)) : option string :=
  match field k fields with
  | Some (JStr s) => Some s
  | _ => None
  end.

Definition num_field (k : string) (fields : list (string * json)) : option Z :=
  match field k fields with
  | Some (JNum z) => Some z
  | _ => None
  end.

(** Reading a parsed object as an [EventData]: [o.user_id] of an object
    without that property is [undefined]. *)
Definition event_of_json (j : json) : option EventData :=
  match j with
  | JObj fs =>
      n ← str_field "name" fs;
      p ← field "properties" fs;
      up ← field "user_properties" fs;
      t ← num_field "timestamp" fs;
      i ← str_field "insert_id" fs;
      Some {| name := n; properties := p; user_properties := up;
              timestamp := t; insert_id := i;
              user_id := str_field "user_id" fs;
              device_id := str_field "device_id" fs;
              id := str_field "id" fs |}
  | _ => None
  end.

Definition events_to_json (l : list EventData) : json :=
  JArr (event_to_json <$> l).

Definition events_of_json (j : json) : option (list EventData) :=
  match j with
  | JArr l => mapM event_of_json l
  | _ => None
  end.

(** *** The SDK state *)

(** The functions handed to [ready] by this component, each closed over
    the event object it was created for. *)
Inductive callback :=
| TrackCallback (event : nat)
| TrackEventCallback (event : nat).

(** What the component does to the outside, in the order it does it. *)
Inductive effect :=
| SetCookie (key value : string) (days : Z)
| SetTimeout (event : nat) (delay : Z)
| CreateEvent (event : nat) (data : Events)
| InitializeApp (initial : bool)
| EmitReady.

(** Event objects live in [heap]; [eventQueue], the timers and the
    callbacks hold references (indices) to them, as the JavaScript arrays
    and closures hold references to the same objects. *)
Record State := {
  isReady : bool;
  queue : list callback;
  heap : list EventData;
  eventQueue : list nat;
  cookies : gmap string Cookie;
  timers : list nat;
  trace : list effect
}.

Definition set_isReady (b : bool) (st : State) : State :=
  {| isReady := b; queue := queue st; heap := heap st;
     eventQueue := eventQueue st; cookies := cookies st;
     timers := timers st; trace := trace st |}.

Definition set_queue (q : list callback) (st : State) : State :=
  {| isReady := isReady st; queue := q; heap := heap st;
     eventQueue := eventQueue st; cookies := cookies st;
     timers := timers st; trace := trace st |}.

Definition set_heap (h : list EventData) (st : State) : State :=
  {| isReady := isReady st; queue := queue st; heap := h;
     eventQueue := eventQueue st; cookies := cookies st;
     timers := timers st; trace := trace st |}.

Definition set_eventQueue (q : list nat) (st : State) : State :=
  {| isReady := isReady st; queue := queue st; heap := heap st;
     eventQueue := q; cookies := cookies st;
     timers := timers st; trace := trace st |}.

Definition set_timers (t : list nat) (st : State) : State :=
  {| isReady := isReady st; queue := queue st; heap := heap st;
     eventQueue := eventQueue st; cookies := cookies st;
     timers := t; trace := trace st |}.

Definition log (e : effect) (st : State) : State :=
  {| isReady := isReady st; queue := queue st; heap := heap st;
     eventQueue := eventQueue st; cookies := cookies st;
     timers := timers st; trace := trace st ++ [e] |}.

Definition write_cookie (key value : string) (days : Z) (st : State) : State :=
  log (SetCookie key value days)
    {| isReady := isReady st; queue := queue st; heap := heap st;
       eventQueue := eventQueue st;
       cookies := setCookie key value days (cookies st);
       timers := timers st; trace := trace st |}.

(** The in-memory backlog: the objects [this.eventQueue] refers to. *)
Definition backlog (st : State) : list EventData :=
  omap (fun r => heap st !! r) (eventQueue st).

(** [event.user_id = uid; event.device_id = uid] *)
Definition stamped (uid : option string) (e : EventData) : EventData :=
  {| name := name e; properties := properties e;
     user_properties := user_properties e;
     timestamp := timestamp e; insert_id := insert_id e;
     user_id := uid; device_id := uid; id := id e |}.

(** [delete event.device_id; delete event.user_id] *)
Definition stripped (e : EventData) : EventData :=
  {| name := name e; properties := properties e;
     user_properties := user_properties e;
     timestamp := timestamp e; insert_id := insert_id e;
     user_id := None; device_id := None; id := id e |}.

Section WithEnvironment.
Variable K : Constants.
(** [canStringify] of [utils.ts], which is not part of the sources at
    hand. *)
Variable canStringify : bool.
Context `{JsonCodec}.

(** [getUserID()]: the cookie when it is a non-empty string. *)
Definition getUserID (st : State) : option string :=
  match getCookie (UserIdKey K) (cookies st) with
  | JsString EmptyString => None
  | JsString uid => Some uid
  | _ => None
  end.

Definition saveEventQueue (st : State) : State :=
  if canStringify then
    write_cookie (EventsKey K) (JSON_stringify (events_to_json (backlog st))) 1 st
  else st.

(** The backlog as the next page load reads it:
    [JSON.parse(getCookie(EventsKey) || "[]")]. *)
Definition persisted_backlog (st : State) : option (list EventData) :=
  match getCookie (EventsKey K) (cookies st) with
  | JsString EmptyString => Some []
  | JsString text => JSON_parse text ≫= events_of_json
  | _ => Some []
  end.

(** [eventData(event)]: builds the request and deletes the two ids from
    the event object itself, which is the object in the backlog. *)
Definition eventData (event : nat) (st : State) : option (Events * State) :=
  e ← heap st !! event;
  Some ({| events := [stripped e];
           events_device_id := device_id e;
           events_user_id := user_id e |},
        set_heap (<[event := stripped e]> (heap st)) st).

(** The body of the callback [track] hands to [ready]. *)
Definition track_callback (event : nat) (st : State) : State :=
  let st1 := set_heap (alter (stamped (getUserID st)) event (heap st)) st in
  let st2 := set_eventQueue (eventQueue st1 ++ [event]) st1 in
  let st3 := saveEventQueue st2 in
  log (SetTimeout event 1000) (set_timers (timers st3 ++ [event]) st3).

(** The body of the callback [trackEvent] hands to [ready]: the request
    is issued; what follows happens when its promise resolves. *)
Definition trackEvent_callback (event : nat) (st : State) : State :=
  match eventData event st with
  | Some (data, st1) => log (CreateEvent event data) st1
  | None => st
  end.

Definition run_callback (c : callback) (st : State) : State :=
  match c with
  | TrackCallback event => track_callback event st
  | TrackEventCallback event => trackEvent_callback event st
  end.

Definition ready (c : callback) (st : State) : State :=
  if isReady st then run_callback c st
  else set_queue (queue st ++ [c]) st.

(** None of these callbacks calls [ready] while it runs, so the loop of
    [setReady] is over the queue as it stands. *)
Fixpoint drain (q : list callback) (st : State) : State :=
  match q with
  | [] => st
  | c :: q' => drain q' (run_callback c (set_queue q' st))
  end.

Definition setReady (initial : bool) (st : State) : State :=
  let st1 := set_isReady true (drain (queue st) st) in
  if initial then log EmitReady st1 else st1.

(** [track(name, properties, userProperties)]; [now] and [fresh] are what
    [u.timestamp()] and [u.generateId()] return. *)
Definition track (nm : string) (props uprops : option json)
    (now : Z) (fresh : string) (st : State) : State :=
  let event := {| name := nm;
                  properties := default (JObj []) props;
                  user_properties := default (JObj []) uprops;
                  timestamp := now; insert_id := fresh;
                  user_id := None; device_id := None; id := None |} in
  let ref := length (heap st) in
  ready (TrackCallback ref) (set_heap (heap st ++ [event]) st).

Definition trackEvent (event : nat) (st : State) : State :=
  ready (TrackEventCallback event) st.

(** A timer set by [track] fires. *)
Definition timeout (st : State) : State :=
  match timers st with
  | [] => st
  | event :: rest => trackEvent event (set_timers rest st)
  end.

Definition same_id (a b : option EventData) : bool :=
  match a, b with
  | Some x, Some y => bool_decide (id x = id y)
  | _, _ => false
  end.

(** The loop of the [then] callback: the first [i] with
    [this.eventQueue[i].id === event.id] is spliced out. *)
Fixpoint remove_delivered (h : list EventData) (event : nat) (q : list nat)
    : list nat :=
  match q with
  | [] => []
  | r :: q' =>
      if same_id (h !! r) (h !! event) then q'
      else r :: remove_delivered h event q'
  end.

(** [api.createEvent(...)] resolved: prune, persist, and start the
    non-initial bootstrap, whose [createUser(null, false)] closes the gate
    at once. *)
Definition delivered (event : nat) (st : State) : State :=
  let st1 := set_eventQueue (remove_delivered (heap st) event (eventQueue st)) st in
  let st2 := saveEventQueue st1 in
  set_isReady false (log (InitializeApp false) st2).

(** Calls made one after the other by the page, the timers and the
    network client. *)
Inductive op :=
| OpTrack (nm : string) (props uprops : option json) (now : Z) (fresh : string)
| OpSetReady (initial : bool)
| OpTimeout
| OpDelivered (event : nat).

Definition step (o : op) (st : State) : State :=
  match o with
  | OpTrack nm props uprops now fresh => track nm props uprops now fresh st
  | OpSetReady initial => setReady initial st
  | OpTimeout => timeout st
  | OpDelivered event => delivered event st
  end.

Definition run (ops : list op) (st : State) : State :=
  foldl (fun st o => step o st) st ops.

End WithEnvironment.

Definition init : State :=
  {| isReady := false; queue := []; heap := []; eventQueue := [];
     cookies := ∅; timers := []; trace := [] |}.

(** *** Properties *)

Lemma event_json_roundtrip (e : EventData) :
  event_of_json (event_to_json e) = Some e.
Proof. by destruct e as [n p up t i [u|] [d|] [x|]]. Qed.

Lemma events_json_roundtrip (l : list EventData) :
  events_of_json (events_to_json l) = Some l.
Proof.
  unfold events_of_json, events_to_json. apply mapM_Some.
  induction l as [|e l IH]; simpl; constructor; [|done].
  apply event_json_roundtrip.
Qed.

(** The fields of a record that nothing changes once [track] has made
    it. *)
Definition payload (e : EventData)
    : string * json * json * Z * string * option string :=
  (name e, properties e, user_properties e, timestamp e, insert_id e, id e).

(** The objects that queued [track] callbacks are still to append. *)
Definition track_refs (q : list callback) : list nat :=
  omap (fun c => match c with
                 | TrackCallback r => Some r
                 | TrackEventCallback _ => None
                 end) q.

Definition is_SetTimeout (e : effect) : bool :=
  match e with
  | SetTimeout _ _ => true
  | _ => false
  end.

(** Traces in which every timer for a delivery is set right after a
    write of the backlog cookie [key]. *)
Inductive persist_first (key : string) : list effect -> Prop :=
| persist_first_nil : persist_first key []
| persist_first_other t e :
    persist_first key t -> is_SetTimeout e = false ->
    persist_first key (t ++ [e])
| persist_first_track t value event delay :
    persist_first key t ->
    persist_first key (t ++ [SetCookie key value 1; SetTimeout event delay]).

Lemma persist_first_lookup (key : string) (t : list effect) :
  persist_first key t ->
  forall i event delay,
    t !! i = Some (SetTimeout event delay) ->
    exists j value, i = S j /\ t !! j = Some (SetCookie key value 1).
Proof.
  induction 1 as [|t e Ht IH He|t value event' delay' Ht IH];
    intros i event delay Hi.
  - done.
  - apply lookup_app_Some in Hi as [Hi|[Hlen Hi]].
    + destruct (IH _ _ _ Hi) as (j & v & -> & Hj).
      exists j, v. split; [done|]. by apply lookup_app_l_Some.
    + apply list_lookup_singleton_Some in Hi as [_ ->]. done.
  - apply lookup_app_Some in Hi as [Hi|[Hlen Hi]].
    + destruct (IH _ _ _ Hi) as (j & v & -> & Hj).
      exists j, v. split; [done|]. by apply lookup_app_l_Some.
    + destruct (i - length t)%nat as [|[|n]] eqn:Hn; simpl in Hi; try done.
      exists (length t), value. split; [lia|].
      rewrite lookup_app_r by lia. by rewrite Nat.sub_diag.
Qed.

Section EventQueueFacts.
Variable K : Constants.
Variable canStringify : bool.
Context `{JsonCodec}.

Lemma backlog_saveEventQueue (st : State) :
  backlog (saveEventQueue K canStringify st) = backlog st.
Proof. unfold saveEventQueue. by destruct canStringify. Qed.

(** After a flush, what the store holds reads back as the in-memory
    backlog, record for record. *)
Lemma saveEventQueue_persisted (st : State) :
  canStringify = true ->
  persisted_backlog K (saveEventQueue K canStringify st)
  = Some (backlog (saveEventQueue K canStringify st)).
Proof.
  intros Hcan. rewrite backlog_saveEventQueue.
  unfold persisted_backlog, saveEventQueue, write_cookie, getCookie, setCookie.
  rewrite Hcan. simpl. rewrite lookup_insert_eq. simpl.
  pose proof (JSON_stringify_nonempty (events_to_json (backlog st))) as Hne.
  destruct (JSON_stringify (events_to_json (backlog st))) as [|a text] eqn:Htext; [done|].
  rewrite <- Htext, JSON_parse_stringify. simpl.
  apply events_json_roundtrip.
Qed.

Lemma saveEventQueue_trace (st : State) :
  canStringify = true ->
  trace (saveEventQueue K canStringify st) =
  trace st ++ [SetCookie (EventsKey K)
                 (JSON_stringify (events_to_json (backlog st))) 1].
Proof. intros Hcan. unfold saveEventQueue. by rewrite Hcan. Qed.

Lemma backlog_push (st : State) (event : nat) (e : EventData)
    (f : EventData -> EventData) :
  heap st !! event = Some e ->
  event ∉ eventQueue st ->
  backlog (set_eventQueue (eventQueue st ++ [event])
             (set_heap (alter f event (heap st)) st))
  = backlog st ++ [f e].
Proof.
  intros He Hfresh. unfold backlog. simpl.
  rewrite omap_app. simpl.
  rewrite list_lookup_alter_eq, He. simpl. f_equal.
  apply list_omap_ext. apply Forall2_same_length_lookup. split; [done|].
  intros i r r' Hr Hr'. assert (r' = r) as -> by congruence.
  apply list_lookup_alter_ne. intros ->.
  apply Hfresh. by eapply list_elem_of_lookup_2.
Qed.

Lemma track_callback_trace (event : nat) (st : State) :
  canStringify = true ->
  exists value,
    trace (track_callback K canStringify event st) =
    trace st ++ [SetCookie (EventsKey K) value 1; SetTimeout event 1000].
Proof.
  intros Hcan. unfold track_callback. simpl.
  rewrite saveEventQueue_trace by done. simpl.
  eexists. by rewrite <- app_assoc.
Qed.

Lemma run_callback_persist_first (c : callback) (st : State) :
  canStringify = true ->
  persist_first (EventsKey K) (trace st) ->
  persist_first (EventsKey K) (trace (run_callback K canStringify c st)).
Proof.
  intros Hcan Hst. destruct c as [event|event]; unfold run_callback.
  - destruct (track_callback_trace event st Hcan) as (value & ->).
    by constructor.
  - unfold trackEvent_callback, eventData.
    destruct (heap st !! event); simpl; [|done]. by constructor.
Qed.

Lemma drain_persist_first (q : list callback) (st : State) :
  canStringify = true ->
  persist_first (EventsKey K) (trace st) ->
  persist_first (EventsKey K) (trace (drain K canStringify q st)).
Proof.
  intros Hcan. revert st. induction q as [|c q IH]; intros st Hst; simpl; [done|].
  apply IH. by apply run_callback_persist_first.
Qed.

Lemma ready_persist_first (c : callback) (st : State) :
  canStringify = true ->
  persist_first (EventsKey K) (trace st) ->
  persist_first (EventsKey K) (trace (ready K canStringify c st)).
Proof.
  intros Hcan Hst. unfold ready.
  destruct (isReady st); [by apply run_callback_persist_first | done].
Qed.

Lemma step_persist_first (o : op) (st : State) :
  canStringify = true ->
  persist_first (EventsKey K) (trace st) ->
  persist_first (EventsKey K) (trace (step K canStringify o st)).
Proof.
  intros Hcan Hst. destruct o as [nm props uprops now fresh|initial| |event]; simpl.
  - unfold track. by apply ready_persist_first.
  - unfold setReady.
    pose proof (drain_persist_first (queue st) st Hcan Hst) as Hd.
    destruct initial; simpl; [by constructor | done].
  - unfold timeout, trackEvent. destruct (timers st) as [|event rest]; [done|].
    by apply ready_persist_first.
  - unfold delivered. simpl. rewrite saveEventQueue_trace by done. simpl.
    constructor; [|done]. by constructor.
Qed.

Lemma run_persist_first (ops : list op) (st : State) :
  canStringify = true ->
  persist_first (EventsKey K) (trace st) ->
  persist_first (EventsKey K) (trace (run K canStringify ops st)).
Proof.
  intros Hcan. revert st. induction ops as [|o ops IH]; intros st Hst; simpl; [done|].
  apply IH. by apply step_persist_first.
Qed.

(** *** References

    The backlog and the callbacks waiting to append to it refer to objects
    of the heap, each object once. *)
Definition pending_refs (st : State) : list nat :=
  eventQueue st ++ track_refs (queue st).

Definition wf (st : State) : Prop :=
  Forall (fun r => (r < length (heap st))%nat) (pending_refs st) /\
  NoDup (pending_refs st).

Lemma heap_saveEventQueue (st : State) :
  heap (saveEventQueue K canStringify st) = heap st.
Proof. unfold saveEventQueue. by destruct canStringify. Qed.

Lemma eventQueue_saveEventQueue (st : State) :
  eventQueue (saveEventQueue K canStringify st) = eventQueue st.
Proof. unfold saveEventQueue. by destruct canStringify. Qed.

Lemma queue_saveEventQueue (st : State) :
  queue (saveEventQueue K canStringify st) = queue st.
Proof. unfold saveEventQueue. by destruct canStringify. Qed.

(** A callback leaves every object where it is and with the fields
    [track] gave it. *)
Lemma run_callback_heap (c : callback) (st : State) :
  length (heap (run_callback K canStringify c st)) = length (heap st) /\
  forall r e, heap st !! r = Some e ->
    exists e', heap (run_callback K canStringify c st) !! r = Some e' /\
               payload e' = payload e.
Proof.
  destruct c as [event|event].
  - change (heap (run_callback K canStringify (TrackCallback event) st))
      with (heap (saveEventQueue K canStringify
              (set_eventQueue (eventQueue st ++ [event])
                 (set_heap (alter (stamped (getUserID K st)) event (heap st)) st)))).
    rewrite heap_saveEventQueue. simpl. split; [apply length_alter|].
    intros r e Hr. destruct (decide (event = r)) as [->|Hne].
    + rewrite list_lookup_alter_eq, Hr. by eexists.
    + rewrite list_lookup_alter_ne by done. by eexists.
  - unfold run_callback, trackEvent_callback, eventData.
    destruct (heap st !! event) as [e0|] eqn:He0; simpl.
    + split; [apply length_insert|].
      intros r e Hr. destruct (decide (event = r)) as [->|Hne].
      * rewrite list_lookup_insert_eq by (by eapply lookup_lt_Some).
        assert (e = e0) as -> by congruence. by eexists.
      * rewrite list_lookup_insert_ne by done. by eexists.
    + split; [done|]. intros r e Hr. by eexists.
Qed.

Lemma run_callback_refs (c : callback) (q : list callback) (st : State) :
  queue (run_callback K canStringify c (set_queue q st)) = q /\
  eventQueue (run_callback K canStringify c (set_queue q st)) ++ track_refs q
  = eventQueue st ++ track_refs (c :: q).
Proof.
  destruct c as [event|event].
  - change (run_callback K canStringify (TrackCallback event) (set_queue q st))
      with (track_callback K canStringify event (set_queue q st)).
    unfold track_callback. simpl.
    rewrite queue_saveEventQueue, eventQueue_saveEventQueue. simpl.
    by rewrite <- app_assoc.
  - unfold run_callback, trackEvent_callback, eventData. simpl.
    by destruct (heap st !! event).
Qed.

(** The state in which the last callback of the queue is entered. *)
Lemma drain_last (q : list callback) (c : callback) (st : State) :
  exists st_k,
    drain K canStringify (q ++ [c]) st =
      run_callback K canStringify c (set_queue [] st_k) /\
    length (heap st_k) = length (heap st) /\
    (forall r e, heap st !! r = Some e ->
       exists e', heap st_k !! r = Some e' /\ payload e' = payload e) /\
    eventQueue st_k ++ track_refs [c] = eventQueue st ++ track_refs (q ++ [c]).
Proof.
  revert st. induction q as [|c0 q IH]; intros st.
  - exists st. split; [done|]. split; [done|]. split; [|done].
    intros r e Hr. by eexists.
  - simpl drain.
    destruct (IH (run_callback K canStringify c0 (set_queue (q ++ [c]) st)))
      as (st_k & Hdrain & Hlen & Hheap & Hrefs).
    destruct (run_callback_heap c0 (set_queue (q ++ [c]) st)) as [Hlen0 Hheap0].
    destruct (run_callback_refs c0 (q ++ [c]) st) as [_ Hrefs0].
    exists st_k. split; [done|]. split; [by rewrite Hlen, Hlen0|]. split.
    + intros r e Hr. destruct (Hheap0 r e Hr) as (e1 & Hr1 & Hp1).
      destruct (Hheap r e1 Hr1) as (e2 & Hr2 & Hp2).
      exists e2. split; [done|]. by rewrite Hp2.
    + rewrite Hrefs. exact Hrefs0.
Qed.

Lemma drain_refs (q : list callback) (st : State) :
  queue st = q ->
  pending_refs (drain K canStringify q st) = pending_refs st /\
  length (heap (drain K canStringify q st)) = length (heap st).
Proof.
  revert st. induction q as [|c q IH]; intros st Hq; simpl; [done|].
  destruct (run_callback_refs c q st) as [Hq1 Hrefs].
  destruct (run_callback_heap c (set_queue q st)) as [Hlen _].
  destruct (IH _ Hq1) as [IHrefs IHlen].
  rewrite IHrefs, IHlen, Hlen. split; [|done].
  unfold pending_refs. by rewrite Hq1, Hrefs, Hq.
Qed.

Lemma remove_delivered_sublist (h : list EventData) (event : nat) (q : list nat) :
  remove_delivered h event q `sublist_of` q.
Proof.
  induction q as [|r q IH]; simpl; [done|].
  destruct (same_id (h !! r) (h !! event)).
  - by apply sublist_cons.
  - by apply sublist_skip.
Qed.

Lemma wf_fresh (st : State) (ref : nat) (refs : list nat) :
  wf st -> ref = length (heap st) -> refs ≡ₚ ref :: pending_refs st ->
  Forall (fun r => (r < S (length (heap st)))%nat) refs /\ NoDup refs.
Proof.
  intros [Hvalid Hnodup] -> Hperm. rewrite Hperm. split.
  - constructor; [lia|]. eapply Forall_impl; [exact Hvalid|]. simpl. lia.
  - constructor; [|done]. intros Hin.
    rewrite Forall_forall in Hvalid. specialize (Hvalid _ Hin). lia.
Qed.

Lemma ready_wf (c : callback) (st : State) :
  wf st -> match c with
           | TrackCallback r => False
           | TrackEventCallback _ => True
           end ->
  wf (ready K canStringify c st).
Proof.
  intros [Hvalid Hnodup] Hc. destruct c as [r|event]; [done|]. unfold ready.
  destruct (isReady st).
  - destruct (run_callback_heap (TrackEventCallback event) st) as [Hlen _].
    unfold wf, pending_refs in *. rewrite Hlen.
    unfold run_callback, trackEvent_callback, eventData in *.
    by destruct (heap st !! event).
  - unfold wf, pending_refs in *. simpl. unfold track_refs in *.
    rewrite omap_app. simpl. by rewrite app_nil_r.
Qed.

Lemma step_wf (o : op) (st : State) :
  wf st -> wf (step K canStringify o st).
Proof.
  intros Hst. destruct o as [nm props uprops now fresh|initial| |event]; simpl.
  - unfold track, ready. simpl. destruct (isReady st).
    + set (e := {| name := nm |}).
      change (wf (track_callback K canStringify (length (heap st))
                    (set_heap (heap st ++ [e]) st))).
      unfold wf, pending_refs, track_callback. simpl.
      rewrite heap_saveEventQueue, queue_saveEventQueue, eventQueue_saveEventQueue.
      simpl. rewrite length_alter, length_app. simpl.
      replace (length (heap st) + 1)%nat with (S (length (heap st))) by lia.
      apply (wf_fresh st (length (heap st))); [done|done|].
      rewrite <- app_assoc. simpl. symmetry. apply Permutation_middle.
    + unfold wf, pending_refs. simpl. rewrite length_app. simpl.
      replace (length (heap st) + 1)%nat with (S (length (heap st))) by lia.
      apply (wf_fresh st (length (heap st))); [done|done|].
      unfold track_refs. rewrite omap_app. simpl.
      rewrite app_assoc. symmetry. apply Permutation_cons_append.
  - unfold setReady.
    destruct (drain_refs (queue st) st eq_refl) as [Hrefs Hlen].
    destruct Hst as [Hvalid Hnodup].
    assert (wf (drain K canStringify (queue st) st)) as Hd.
    { unfold wf. by rewrite Hrefs, Hlen. }
    by destruct initial.
  - unfold timeout, trackEvent. destruct (timers st) as [|event rest]; [done|].
    by apply ready_wf.
  - destruct Hst as [Hvalid Hnodup]. unfold delivered, wf, pending_refs in *. simpl.
    rewrite heap_saveEventQueue, queue_saveEventQueue, eventQueue_saveEventQueue.
    simpl.
    assert (remove_delivered (heap st) event (eventQueue st) ++ track_refs (queue st)
            `sublist_of` eventQueue st ++ track_refs (queue st)) as Hsub.
    { apply sublist_app; [apply remove_delivered_sublist|done]. }
    split; [|by eapply sublist_NoDup].
    rewrite Forall_forall in *. intros r Hr. apply Hvalid.
    by eapply sublist_subseteq.
Qed.

Lemma run_wf (ops : list op) (st : State) :
  wf st -> wf (run K canStringify ops st).
Proof.
  revert st. induction ops as [|o ops IH]; intros st Hst; simpl; [done|].
  apply IH. by apply step_wf.
Qed.

Lemma init_wf : wf init.
Proof. split; [constructor|]. unfold pending_refs. simpl. constructor. Qed.

(** What the callback of [track] does, for an object that is in the heap
    and not yet in the backlog. *)
Lemma run_track_callback (st : State) (event : nat) (e : EventData) :
  canStringify = true ->
  heap st !! event = Some e ->
  event ∉ eventQueue st ->
  let st' := run_callback K canStringify (TrackCallback event) st in
  backlog st' = backlog st ++ [stamped (getUserID K st) e] /\
  trace st' = trace st ++
    [ SetCookie (EventsKey K) (JSON_stringify (events_to_json (backlog st'))) 1;
      SetTimeout event 1000 ] /\
  timers st' = timers st ++ [event] /\
  persisted_backlog K st' = Some (backlog st').
Proof.
  intros Hcan He Hfresh st'.
  pose (st2 := set_eventQueue (eventQueue st ++ [event])
                 (set_heap (alter (stamped (getUserID K st)) event (heap st)) st)).
  pose (st3 := saveEventQueue K canStringify st2).
  assert (backlog st' = backlog st3) as Hb' by reflexivity.
  assert (persisted_backlog K st' = persisted_backlog K st3) as Hp' by reflexivity.
  assert (trace st' = trace st3 ++ [SetTimeout event 1000]) as Ht' by reflexivity.
  assert (timers st' = timers st3 ++ [event]) as Hti' by reflexivity.
  assert (backlog st3 = backlog st ++ [stamped (getUserID K st) e]) as Hb.
  { unfold st3. rewrite backlog_saveEventQueue.
    apply (backlog_push st event e (stamped (getUserID K st)) He Hfresh). }
  rewrite Hb', Hp', Ht', Hti'. clear Hb' Hp' Ht' Hti'.
  split; [done|]. split.
  { unfold st3 at 1. rewrite saveEventQueue_trace by done.
    fold st3. unfold st3 at 1. rewrite backlog_saveEventQueue.
    by rewrite <- app_assoc. }
  split.
  { unfold st3, saveEventQueue. by rewrite Hcan. }
  apply (saveEventQueue_persisted st2 Hcan).
Qed.

Lemma wf_fresh_ref (st : State) : wf st -> length (heap st) ∉ pending_refs st.
Proof.
  intros [Hvalid _] Hin. rewrite Forall_forall in Hvalid.
  specialize (Hvalid _ Hin). lia.
Qed.


(** Records made by [track] have no [id]; with two such records the
    comparison [this.eventQueue[i].id === event.id] holds at [i = 0]
    whatever [event] is, and the head of the backlog is spliced out. *)
Lemma remove_delivered_without_id (h : list EventData) (event r : nat)
    (q : list nat) (e e' : EventData) :
  h !! r = Some e -> h !! event = Some e' ->
  id e = None -> id e' = None ->
  remove_delivered h event (r :: q) = q.
Proof.
  intros Hr He Hid Hid'. simpl. rewrite Hr, He. simpl.
  by rewrite Hid, Hid', bool_decide_eq_true_2.
Qed.

End EventQueueFacts.

(** Two events are tracked with the gate open and both requests are
    issued. *)
Definition two_tracked : State :=
  run K0 true
    [ OpSetReady true;
      OpTrack "view" None None 1000 "id-a";
      OpTrack "click" None None 2000 "id-b";
      OpTimeout; OpTimeout ] init.

(** C2, at a backlog of two records. The request for the second record
    (object 1, insertion id ["id-b"]) succeeds; the record that leaves the
    backlog is the first one, the delivered one stays, and that is what
    is persisted. *)
Theorem delivered_prunes_head_of_backlog :
  eventQueue two_tracked = [0; 1]%nat /\
  map insert_id (backlog two_tracked) = ["id-a"; "id-b"] /\
  map id (backlog two_tracked) = [None; None] /\
  eventQueue (delivered K0 true 1 two_tracked) = [1%nat] /\
  map insert_id (backlog (delivered K0 true 1 two_tracked)) = ["id-b"] /\
  option_map (map insert_id)
    (persisted_backlog K0 (delivered K0 true 1 two_tracked)) = Some ["id-b"].
Proof. repeat split; vm_compute; reflexivity. Qed.

(** With a single record in the backlog the head is the delivered
    record, and the backlog empties. *)
Example delivered_single_record :
  backlog (run K0 true
             [ OpSetReady true; OpTrack "view" None None 1000 "id-a";
               OpTimeout; OpDelivered 0 ] init) = [].
Proof. vm_compute. reflexivity. Qed.

Definition fresh_event : EventData :=
  {| name := "view"; properties := JObj []; user_properties := JObj [];
     timestamp := 1000; insert_id := "id-a";
     user_id := None; device_id := None; id := None |}.

Definition fresh_state : State :=
  set_heap [fresh_event] (setReady K0 true true init).


Example track_writes_json :
  trace (run_callback K0 true (TrackCallback 0) fresh_state) =
  [ EmitReady;
    SetCookie "apphud_events"
      (Json.stringify (JArr [ JObj [ ("name", JStr "view");
                                     ("properties", JObj []);
                                     ("user_properties", JObj []);
                                     ("timestamp", JNum 1000);
                                     ("insert_id", JStr "id-a") ] ])) 1;
    SetTimeout 0 1000 ].
Proof. vm_compute. reflexivity. Qed.

(** A call made while the gate is closed does nothing until [setReady]. *)
Example track_before_ready_is_deferred :
  trace (run K0 true [OpTrack "view" None None 1000 "id-a"] init) = [] /\
  trace (run K0 true [OpTrack "view" None None 1000 "id-a"; OpSetReady true] init) =
  [ SetCookie "apphud_events"
      (Json.stringify (JArr [ JObj [ ("name", JStr "view");
                                     ("properties", JObj []);
                                     ("user_properties", JObj []);
                                     ("timestamp", JNum 1000);
                                     ("insert_id", JStr "id-a") ] ])) 1;
    SetTimeout 0 1000;
    EmitReady ].
Proof. split; vm_compute; reflexivity. Qed.

End EventQueue.

(** ** Payment form: the Stripe adapter *)

Module StripeForm.

Record Subscription := {
  client_secret : option string;
  deep_link : option string
}.

(** [PaymentProviderFormOptions], as far as the form reads it. *)
Record Options := { successUrl : option string }.

(** An error reported by the provider or thrown by the API client. *)
Record Error := { message : option string }.

(** [config.baseSuccessURL] and [config.redirectDelay]. *)
Record Config := { baseSuccessURL : string; redirectDelay : Z }.

Record User := { user_id : string }.

(** The [#submit] button. *)
Record Button := { disabled : bool; innerText : string }.

Inductive payload :=
| FormInitialized (selector : string)
| FormReady
| PaymentSuccess (user : string)
| PaymentFailure (error : Error).

(** What the form does to the outside, in the order it does it. *)
Inductive effect :=
| Emit (event : string) (data : payload)
| CreateSubscription (provider product : string) (paywall placement : option string)
    (user : string)
| ElementsSubmit
| ConfirmPayment (clientSecret : option string) (return_url : string)
| SetCookie (key value : string) (days : Z)
| SetTimeout (delay : Z)
| Mount
| Navigate (target : string)
| LogError.

(** The fields of [StripeForm] ([stripe], [elements], [paymentElement],
    [subscription], [submit], [submitReadyText]), the parts of the page it
    touches, and the trace. [submit] tells whether [this.submit] refers to
    the button of the page, [submit_button]. [listeners] are the submit
    handlers attached to the form, each with the options it closed over;
    [timers] are the pending redirects, each with the options and the deep
    link it closed over. *)
Record State := {
  stripe : bool;
  elements : option (option string);
  paymentElement : bool;
  subscription : option Subscription;
  submit : bool;
  submitReadyText : string;
  submit_button : option Button;
  error_message : option string;
  card_errors : option string;
  form_present : bool;
  listeners : list (option Options);
  href : string;
  cookies : gmap string Cookie;
  timers : list (option Options * option string);
  trace : list effect
}.

Definition submitProcessingText : string := "Please wait...".

Definition log (e : effect) (st : State) : State :=
  {| stripe := stripe st; elements := elements st;
     paymentElement := paymentElement st; subscription := subscription st;
     submit := submit st; submitReadyText := submitReadyText st;
     submit_button := submit_button st; error_message := error_message st;
     card_errors := card_errors st; form_present := form_present st;
     listeners := listeners st; href := href st; cookies := cookies st;
     timers := timers st; trace := trace st ++ [e] |}.

Definition set_button (b : option Button) (st : State) : State :=
  {| stripe := stripe st; elements := elements st;
     paymentElement := paymentElement st; subscription := subscription st;
     submit := submit st; submitReadyText := submitReadyText st;
     submit_button := b; error_message := error_message st;
     card_errors := card_errors st; form_present := form_present st;
     listeners := listeners st; href := href st; cookies := cookies st;
     timers := timers st; trace := trace st |}.

Definition set_error_message (t : option string) (st : State) : State :=
  {| stripe := stripe st; elements := elements st;
     paymentElement := paymentElement st; subscription := subscription st;
     submit := submit st; submitReadyText := submitReadyText st;
     submit_button := submit_button st; error_message := t;
     card_errors := card_errors st; form_present := form_present st;
     listeners := listeners st; href := href st; cookies := cookies st;
     timers := timers st; trace := trace st |}.

Definition set_card_errors (t : option string) (st : State) : State :=
  {| stripe := stripe st; elements := elements st;
     paymentElement := paymentElement st; subscription := subscription st;
     submit := submit st; submitReadyText := submitReadyText st;
     submit_button := submit_button st; error_message := error_message st;
     card_errors := t; form_present := form_present st;
     listeners := listeners st; href := href st; cookies := cookies st;
     timers := timers st; trace := trace st |}.

Definition set_submit (b : bool) (readyText : string) (st : State) : State :=
  {| stripe := stripe st; elements := elements st;
     paymentElement := paymentElement st; subscription := subscription st;
     submit := b; submitReadyText := readyText;
     submit_button := submit_button st; error_message := error_message st;
     card_errors := card_errors st; form_present := form_present st;
     listeners := listeners st; href := href st; cookies := cookies st;
     timers := timers st; trace := trace st |}.

Definition set_subscription (sub : option Subscription) (st : State) : State :=
  {| stripe := stripe st; elements := elements st;
     paymentElement := paymentElement st; subscription := sub;
     submit := submit st; submitReadyText := submitReadyText st;
     submit_button := submit_button st; error_message := error_message st;
     card_errors := card_errors st; form_present := form_present st;
     listeners := listeners st; href := href st; cookies := cookies st;
     timers := timers st; trace := trace st |}.

Definition set_elements (els : option (option string)) (pe : bool) (st : State)
    : State :=
  {| stripe := stripe st; elements := els;
     paymentElement := pe; subscription := subscription st;
     submit := submit st; submitReadyText := submitReadyText st;
     submit_button := submit_button st; error_message := error_message st;
     card_errors := card_errors st; form_present := form_present st;
     listeners := listeners st; href := href st; cookies := cookies st;
     timers := timers st; trace := trace st |}.

Definition add_listener (o : option Options) (st : State) : State :=
  {| stripe := stripe st; elements := elements st;
     paymentElement := paymentElement st; subscription := subscription st;
     submit := submit st; submitReadyText := submitReadyText st;
     submit_button := submit_button st; error_message := error_message st;
     card_errors := card_errors st; form_present := form_present st;
     listeners := listeners st ++ [o]; href := href st; cookies := cookies st;
     timers := timers st; trace := trace st |}.

Definition set_timers (t : list (option Options * option string)) (st : State)
    : State :=
  {| stripe := stripe st; elements := elements st;
     paymentElement := paymentElement st; subscription := subscription st;
     submit := submit st; submitReadyText := submitReadyText st;
     submit_button := submit_button st; error_message := error_message st;
     card_errors := card_errors st; form_present := form_present st;
     listeners := listeners st; href := href st; cookies := cookies st;
     timers := t; trace := trace st |}.

Definition set_href (target : string) (st : State) : State :=
  {| stripe := stripe st; elements := elements st;
     paymentElement := paymentElement st; subscription := subscription st;
     submit := submit st; submitReadyText := submitReadyText st;
     submit_button := submit_button st; error_message := error_message st;
     card_errors := card_errors st; form_present := form_present st;
     listeners := listeners st; href := target; cookies := cookies st;
     timers := timers st; trace := trace st |}.

Definition write_cookie (key value : string) (days : Z) (st : State) : State :=
  log (SetCookie key value days)
    {| stripe := stripe st; elements := elements st;
       paymentElement := paymentElement st; subscription := subscription st;
       submit := submit st; submitReadyText := submitReadyText st;
       submit_button := submit_button st; error_message := error_message st;
       card_errors := card_errors st; form_present := form_present st;
       listeners := listeners st; href := href st;
       cookies := setCookie key value days (cookies st);
       timers := timers st; trace := trace st |}.

Inductive button_state := Loading | Ready | Processing.

Definition setButtonState (state : button_state) (st : State) : State :=
  if submit st then
    match state with
    | Loading =>
        set_button
          ((fun b => {| disabled := true; innerText := innerText b |})
             <$> submit_button st) st
    | Ready =>
        set_button
          ((fun b => {| disabled := false; innerText := submitReadyText st |})
             <$> submit_button st) st
    | Processing =>
        set_button
          ((fun b => {| disabled := true; innerText := submitProcessingText |})
             <$> submit_button st) st
    end
  else log LogError st.

(** A string is truthy when it is there and not empty. *)
Definition truthy (v : option string) : bool :=
  match v with
  | Some EmptyString => false
  | Some _ => true
  | None => false
  end.

(** [x || ""] *)
Definition or_empty (v : option string) : string :=
  match v with
  | Some s => s
  | None => EmptyString
  end.

(** A [string | undefined] in a string concatenation. *)
Definition to_string (v : option string) : string :=
  match v with
  | Some s => s
  | None => "undefined"
  end.

(** [errorElement.textContent = text] when [#error-message] exists. *)
Definition show_error (text : string) (st : State) : State :=
  match error_message st with
  | Some _ => set_error_message (Some text) st
  | None => st
  end.

Section WithEnvironment.
Variable K : Constants.
Variable config : Config.
Variable user : User.
Variable providerId : string.

(** The function given to [setTimeout] on success. *)
Definition redirect_target (options : option Options) (deepLink : option string)
    : string :=
  match options ≫= successUrl with
  | Some url =>
      if truthy (Some url) && negb (String.eqb url "undefined") then url
      else baseSuccessURL config +:+ "/" +:+ to_string deepLink
  | None => baseSuccessURL config +:+ "/" +:+ to_string deepLink
  end.

(** The submit handler that [setupForm] attaches; [confirmation] is the
    [error] of what [stripe.confirmPayment] resolves to. *)
Definition on_submit (options : option Options) (confirmation : option Error)
    (st : State) : js State :=
  let st := setButtonState Processing st in
  if negb (stripe st) then Val (log LogError st)
  else
    match elements st with
    | None => Val (log LogError st)
    | Some _ =>
        let st := log ElementsSubmit st in
        secret ← prop client_secret (subscription st);
        let st := log (ConfirmPayment secret (href st)) st in
        match confirmation with
        | Some error =>
            let st := log (Emit "payment_failure" (PaymentFailure error)) st in
            let st := show_error (or_empty (message error)) st in
            Val (setButtonState Ready st)
        | None =>
            let st := log (Emit "payment_success" (PaymentSuccess (user_id user))) st in
            deepLink ← prop deep_link (subscription st);
            let st := if truthy deepLink
                      then write_cookie (DeepLinkURL K) (or_empty deepLink)
                             (SelectedProductDuration K) st
                      else st in
            Val (log (SetTimeout (redirectDelay config))
                   (set_timers (timers st ++ [(options, deepLink)]) st))
        end
    end.

(** The oldest pending redirect fires. *)
Definition timeout (st : State) : State :=
  match timers st with
  | [] => st
  | (options, deepLink) :: rest =>
      let target := redirect_target options deepLink in
      log (Navigate target) (set_href target (set_timers rest st))
  end.

(** What [api.createSubscription] comes back with. *)
Inductive api_result :=
| Resolved (sub : option Subscription)
| Rejected (error : Error).

Definition subscription_error : Error :=
  {| message := Some "Subscription was not created" |}.

(** [createSubscription]: [Some error] when it throws. *)
Definition createSubscription (productId : string)
    (paywallId placementId : option string) (result : api_result) (st : State)
    : State * option Error :=
  let st := log (CreateSubscription providerId productId paywallId placementId
                   (user_id user)) st in
  match result with
  | Resolved sub =>
      let st := set_subscription sub st in
      match sub with
      | Some _ => (st, None)
      | None => (log LogError st, Some subscription_error)
      end
  | Rejected error => (log LogError st, Some error)
  end.

Definition initStripe (st : State) : js State :=
  if negb (stripe st) then Val (log LogError st)
  else
    secret ← prop client_secret (subscription st);
    Val (set_elements (Some secret) true st).

Definition setupForm (options : option Options) (st : State) : State :=
  if form_present st then add_listener options st
  else log LogError st.

Definition show (productId : string) (paywallId placementId : option string)
    (options : option Options) (result : api_result) (st : State) : js State :=
  let st := log (Emit "payment_form_initialized"
                   (FormInitialized (PaymentFormContainer K))) st in
  match submit_button st with
  | None => Val (log LogError st)
  | Some button =>
      let st := set_submit true (submitReadyText st) st in
      let st := setButtonState Loading st in
      let st := if negb (String.eqb (innerText button) EmptyString)
                then set_submit true (innerText button) st
                else st in
      match createSubscription productId paywallId placementId result st with
      | (st, Some error) =>
          let st := log LogError st in
          let st := setButtonState Ready st in
          let st := show_error
                      "Failed to initialize payment form. Please try again." st in
          Val (log (Emit "payment_failure" (PaymentFailure error)) st)
      | (st, None) =>
          st ← initStripe st;
          if negb (paymentElement st) then Val (log LogError st)
          else if negb (defined (subscription st)) then Val (log LogError st)
          else Val (log Mount (setupForm options st))
      end
  end.

(** The payment element reports that it is ready. *)
Definition on_ready (st : State) : State :=
  log (Emit "payment_form_ready" FormReady) (setButtonState Ready st).

(** The payment element reports a load error. *)
Definition on_loaderror (event : option (option Error)) (st : State) : State :=
  let st := setButtonState Ready st in
  match card_errors st, event with
  | Some _, Some (Some error) => set_card_errors (Some (or_empty (message error))) st
  | Some _, Some None => set_card_errors (Some EmptyString) st
  | _, _ => st
  end.

End WithEnvironment.

(** *** Properties *)

Definition is_CreateSubscription (e : effect) : bool :=
  match e with
  | CreateSubscription _ _ _ _ _ => true
  | _ => false
  end.

Section StripeFormFacts.
Variable K : Constants.
Variable config : Config.
Variable user : User.
Variable providerId : string.

(** The state [show] leaves behind when the page has the button and the
    form, Stripe is loaded and the subscription is created. *)
Lemma show_mounts (st0 : State) (b : Button) (productId : string)
    (paywallId placementId : option string) (options : option Options)
    (sub : Subscription) :
  stripe st0 = true ->
  form_present st0 = true ->
  submit_button st0 = Some b ->
  innerText b <> EmptyString ->
  exists st1,
    show K user providerId productId paywallId placementId options
      (Resolved (Some sub)) st0 = Val st1 /\
    stripe st1 = true /\
    elements st1 = Some (client_secret sub) /\
    subscription st1 = Some sub /\
    submit st1 = true /\
    submitReadyText st1 = innerText b /\
    submit_button st1 = Some {| disabled := true; innerText := innerText b |} /\
    error_message st1 = error_message st0 /\
    listeners st1 = listeners st0 ++ [options] /\
    href st1 = href st0 /\
    cookies st1 = cookies st0 /\
    timers st1 = timers st0 /\
    trace st1 = trace st0 ++
      [ Emit "payment_form_initialized" (FormInitialized (PaymentFormContainer K));
        CreateSubscription providerId productId paywallId placementId (user_id user);
        Mount ].
Proof.
  intros Hstripe Hform Hbutton Hlabel.
  apply String.eqb_neq in Hlabel.
  unfold show. simpl. rewrite Hbutton.
  unfold setButtonState. simpl. rewrite Hbutton, Hlabel. simpl.
  unfold initStripe. simpl. rewrite Hstripe. simpl.
  unfold setupForm. simpl. rewrite Hform. simpl.
  eexists. split; [reflexivity|]. simpl.
  repeat split; [done|]. by rewrite <- !app_assoc.
Qed.

(** What the handler does up to the provider's answer. *)
Lemma on_submit_confirms (options : option Options) (confirmation : option Error)
    (st : State) (sub : Subscription) (els : option string) :
  stripe st = true -> elements st = Some els ->
  subscription st = Some sub -> submit st = true ->
  exists st' more,
    on_submit K config user options confirmation st = Val st' /\
    trace st' = trace st ++
      [ElementsSubmit; ConfirmPayment (client_secret sub) (href st)] ++ more /\
    forallb (fun e => negb (is_CreateSubscription e)) more = true /\
    subscription st' = Some sub.
Proof.
  intros Hstripe Hels Hsub Hsubmit.
  unfold on_submit, setButtonState. rewrite Hsubmit. simpl.
  rewrite Hstripe, Hels. simpl. rewrite Hsub. simpl.
  destruct confirmation as [error|].
  - unfold show_error. simpl.
    destruct (error_message st) eqn:Hem; simpl; rewrite Hsubmit;
      eexists _, [_]; (split; [reflexivity|]); simpl;
      rewrite <- ?app_assoc; by repeat split.
  - destruct (truthy (deep_link sub)); simpl.
    + eexists _, [_; _; _]. split; [reflexivity|]. simpl.
      rewrite <- ?app_assoc. by repeat split.
    + eexists _, [_; _]. split; [reflexivity|]. simpl.
      rewrite <- ?app_assoc. by repeat split.
Qed.

Lemma on_submit_error (options : option Options) (error : Error)
    (st : State) (sub : Subscription) (els : option string) :
  stripe st = true -> elements st = Some els ->
  subscription st = Some sub -> submit st = true ->
  exists st',
    on_submit K config user options (Some error) st = Val st' /\
    trace st' = trace st ++
      [ ElementsSubmit; ConfirmPayment (client_secret sub) (href st);
        Emit "payment_failure" (PaymentFailure error) ] /\
    error_message st' =
      match error_message st with
      | Some _ => Some (or_empty (message error))
      | None => None
      end /\
    submit_button st' =
      (fun _ => {| disabled := false; innerText := submitReadyText st |})
        <$> submit_button st /\
    stripe st' = true /\ elements st' = Some els /\
    subscription st' = Some sub /\ submit st' = true /\
    href st' = href st /\ cookies st' = cookies st /\ timers st' = timers st.
Proof.
  intros Hstripe Hels Hsub Hsubmit.
  unfold on_submit, setButtonState. rewrite Hsubmit. simpl.
  rewrite Hstripe, Hels. simpl. rewrite Hsub. simpl.
  unfold show_error. simpl.
  destruct (error_message st) eqn:Hem; simpl; rewrite Hsubmit;
    (eexists; split; [reflexivity|]); simpl; rewrite <- ?app_assoc;
    destruct (submit_button st); by repeat split.
Qed.

Lemma on_submit_success (options : option Options)
    (st : State) (sub : Subscription) (els : option string) :
  stripe st = true -> elements st = Some els ->
  subscription st = Some sub -> submit st = true ->
  exists st',
    on_submit K config user options None st = Val st' /\
    trace st' = trace st ++
      [ ElementsSubmit; ConfirmPayment (client_secret sub) (href st);
        Emit "payment_success" (PaymentSuccess (user_id user)) ] ++
      (if truthy (deep_link sub)
       then [SetCookie (DeepLinkURL K) (or_empty (deep_link sub))
               (SelectedProductDuration K)]
       else []) ++
      [SetTimeout (redirectDelay config)] /\
    cookies st' =
      (if truthy (deep_link sub)
       then setCookie (DeepLinkURL K) (or_empty (deep_link sub))
              (SelectedProductDuration K) (cookies st)
       else cookies st) /\
    timers st' = timers st ++ [(options, deep_link sub)] /\
    href st' = href st.
Proof.
  intros Hstripe Hels Hsub Hsubmit.
  unfold on_submit, setButtonState. rewrite Hsubmit. simpl.
  rewrite Hstripe, Hels. simpl. rewrite Hsub. simpl.
  destruct (truthy (deep_link sub)); simpl;
    (eexists; split; [reflexivity|]); simpl; rewrite <- ?app_assoc;
    by repeat split.
Qed.

(** The target of the redirect, case by case. *)
Lemma redirect_target_explicit (options : option Options)
    (deepLink : option string) (url : string) :
  options ≫= successUrl = Some url ->
  url <> EmptyString -> url <> "undefined" ->
  redirect_target config options deepLink = url.
Proof.
  intros Hurl Hne Hph. unfold redirect_target. rewrite Hurl.
  apply String.eqb_neq in Hph. rewrite Hph.
  by destruct url.
Qed.

Lemma redirect_target_default (options : option Options)
    (deepLink : option string) :
  options ≫= successUrl = None \/
  options ≫= successUrl = Some EmptyString \/
  options ≫= successUrl = Some "undefined" ->
  redirect_target config options deepLink =
  baseSuccessURL config +:+ "/" +:+ to_string deepLink.
Proof.
  unfold redirect_target. by intros [-> | [-> | ->]].
Qed.

(** C8. The page has the button and the form, Stripe is loaded, [show]
    has created the subscription and attached the handler. When the
    confirmation then reports no error, the handler emits one
    [payment_success] event with the user id, stores the deep link for
    [SelectedProductDuration] days if the subscription has one, and sets
    one timer of [config.redirectDelay]; when the timer fires there is one
    navigation, to the success URL of the options if it is a non-empty
    string other than ["undefined"], otherwise to
    [config.baseSuccessURL + "/" + deepLink]. *)
Theorem confirmation_success_redirects_once
    (st0 : State) (b : Button) (productId : string)
    (paywallId placementId : option string) (options : option Options)
    (sub : Subscription) :
  stripe st0 = true ->
  form_present st0 = true ->
  submit_button st0 = Some b ->
  innerText b <> EmptyString ->
  timers st0 = [] ->
  exists st1 st2,
    show K user providerId productId paywallId placementId options
      (Resolved (Some sub)) st0 = Val st1 /\
    listeners st1 = listeners st0 ++ [options] /\
    on_submit K config user options None st1 = Val st2 /\
    trace st2 = trace st1 ++
      [ ElementsSubmit; ConfirmPayment (client_secret sub) (href st0);
        Emit "payment_success" (PaymentSuccess (user_id user)) ] ++
      (if truthy (deep_link sub)
       then [SetCookie (DeepLinkURL K) (or_empty (deep_link sub))
               (SelectedProductDuration K)]
       else []) ++
      [SetTimeout (redirectDelay config)] /\
    (forall link, deep_link sub = Some link -> link <> EmptyString ->
       cookies st2 !! DeepLinkURL K =
       Some {| cookie_value := link; cookie_days := SelectedProductDuration K |}) /\
    (truthy (deep_link sub) = false -> cookies st2 = cookies st0) /\
    timers st2 = [(options, deep_link sub)] /\
    trace (timeout config st2) =
      trace st2 ++ [Navigate (redirect_target config options (deep_link sub))] /\
    href (timeout config st2) = redirect_target config options (deep_link sub) /\
    timers (timeout config st2) = [] /\
    (forall url, options ≫= successUrl = Some url ->
       url <> EmptyString -> url <> "undefined" ->
       redirect_target config options (deep_link sub) = url) /\
    (options ≫= successUrl = None \/
     options ≫= successUrl = Some EmptyString \/
     options ≫= successUrl = Some "undefined" ->
     redirect_target config options (deep_link sub) =
     baseSuccessURL config +:+ "/" +:+ to_string (deep_link sub)).
Proof.
  intros Hstripe Hform Hbutton Hlabel Htimers.
  destruct (show_mounts st0 b productId paywallId placementId options sub
              Hstripe Hform Hbutton Hlabel)
    as (st1 & Hshow & Hs & He & Hsub & Hsm & _ & _ & _ & Hl & Hh & Hc & Ht & _).
  destruct (on_submit_success options st1 sub _ Hs He Hsub Hsm)
    as (st2 & Hsubmit & Htrace & Hcookies & Htimers2 & Hhref).
  exists st1, st2. split; [done|]. split; [done|]. split; [done|].
  split; [by rewrite Htrace, Hh|].
  split.
  { intros link Hlink Hne. rewrite Hcookies, Hlink. simpl.
    destruct link; [done|]. simpl. unfold setCookie. by rewrite lookup_insert_eq. }
  split.
  { intros Hfalsy. by rewrite Hcookies, Hfalsy. }
  rewrite Ht, Htimers in Htimers2. simpl in Htimers2.
  split; [done|].
  unfold timeout. rewrite Htimers2. simpl.
  split; [done|]. split; [done|]. split; [done|].
  split; [apply redirect_target_explicit | apply redirect_target_default].
Qed.


End StripeFormFacts.

(** *** A checkout page to evaluate the form on *)

Definition config0 : Config :=
  {| baseSuccessURL := "https://shop.example/success"; redirectDelay := 1000 |}.

Definition user0 : User := {| user_id := "user-1" |}.

Definition pay_button : Button := {| disabled := false; innerText := "Pay now" |}.

Definition page : State :=
  {| stripe := true; elements := None; paymentElement := false;
     subscription := None; submit := false; submitReadyText := "Subscribe";
     submit_button := Some pay_button; error_message := Some EmptyString;
     card_errors := None; form_present := true; listeners := [];
     href := "https://shop.example/checkout"; cookies := ∅;
     timers := []; trace := [] |}.

Definition sub0 : Subscription :=
  {| client_secret := Some "seti_123"; deep_link := Some "app-link" |}.

Definition declined : Error := {| message := Some "Your card was declined." |}.

Lemma confirmation_success_redirects_once_witness :
  stripe page = true /\
  form_present page = true /\
  submit_button page = Some pay_button /\
  innerText pay_button <> EmptyString /\
  timers page = [] /\
  exists st1 st2,
    show K0 user0 "stripe" "price_month" (Some "pw-main") (Some "1") None
      (Resolved (Some sub0)) page = Val st1 /\
    on_submit K0 config0 user0 None None st1 = Val st2 /\
    href (timeout config0 st2) = "https://shop.example/success/app-link".
Proof.
  assert (innerText pay_button <> EmptyString) as Hlabel by discriminate.
  do 3 (split; [reflexivity|]). split; [exact Hlabel|]. split; [reflexivity|].
  destruct (confirmation_success_redirects_once K0 config0 user0 "stripe"
              page pay_button "price_month" (Some "pw-main") (Some "1") None sub0
              eq_refl eq_refl eq_refl Hlabel eq_refl)
    as (st1 & st2 & Hshow & _ & Hsubmit & _ & _ & _ & _ & _ & Hhref & _).
  exists st1, st2. split; [exact Hshow|]. split; [exact Hsubmit|].
  rewrite Hhref. reflexivity.
Defined.


(** The whole success path on that page: show, submit, timer. *)
Example checkout_success_trace :
  (st1 ← show K0 user0 "stripe" "price_month" (Some "pw-main") (Some "1") None
          (Resolved (Some sub0)) page;
   st2 ← on_submit K0 config0 user0 None None st1;
   Val (trace (timeout config0 st2))) =
  Val [ Emit "payment_form_initialized" (FormInitialized "#apphud-payment-form");
        CreateSubscription "stripe" "price_month" (Some "pw-main") (Some "1") "user-1";
        Mount;
        ElementsSubmit;
        ConfirmPayment (Some "seti_123") "https://shop.example/checkout";
        Emit "payment_success" (PaymentSuccess "user-1");
        SetCookie "apphud_deeplink" "app-link" 1;
        SetTimeout 1000;
        Navigate "https://shop.example/success/app-link" ].
Proof. reflexivity. Qed.

(** Without a deep link the computed target ends in ["undefined"]; a
    success URL that is the text ["undefined"] is passed over. *)
Example redirect_target_examples :
  redirect_target config0 None None = "https://shop.example/success/undefined" /\
  redirect_target config0 (Some {| successUrl := Some "undefined" |}) (Some "app-link")
    = "https://shop.example/success/app-link" /\
  redirect_target config0 (Some {| successUrl := Some "https://shop.example/thanks" |})
    (Some "app-link") = "https://shop.example/thanks".
Proof. repeat split; reflexivity. Qed.

End StripeForm.
